(** * Pending-header staging container and confirmation exchange

    A shallow embedding of the pandora pending-header container
    (package [core]: [PandoraPendingHeaderContainer]) and of the reference
    orchestrator service used by the confirmation client's test
    (package [pandora_orcclient]: [ConfirmPanBlockHashes]).

    Conventions.
    - [uint64] values are integers in [0, 2^64); increments wrap around.
    - [common.Hash] (a 32-byte array) is the 256-bit big-endian number its
      bytes spell; byte-wise key order is then numeric order.
    - A Go pointer that may be nil ([*uint64], [*types.Header]) is an
      [option]; a slice of pointers is a list of options.
    - A loop that Go does not bound syntactically takes a [fuel] argument
      and returns [None] when the fuel runs out. *)

From Stdlib Require Import ZArith List String Ascii Lia.
From stdpp Require Import gmap list sorting strings.

Local Open Scope Z_scope.

(** ** Machine integers *)

Module uint64.

Definition modulus : Z := 2 ^ 64.
Definition max : Z := modulus - 1.

(** [i++] on a [uint64]. *)
Definition incr (i : Z) : Z := (i + 1) mod modulus.

(** [Uint64()] of a [big.Int]: the low 64 bits of the magnitude. *)
Definition of_big (x : Z) : Z := Z.abs x mod modulus.

Definition in_range (i : Z) : Prop := 0 <= i < modulus.

End uint64.

(** ** package types *)

Module types.

(** [types.Header].  The container reads [Number] and [Hash()] only; the
    remaining consensus fields are represented by [ParentHash] and [Time],
    which it stores and returns untouched. *)
Record Header : Type := mkHeader {
  ParentHash : Z;
  Number : Z;
  Time : Z
}.

#[global] Instance Header_eq_dec : EqDecision Header.
Proof. solve_decision. Defined.

(** [header.Number.Uint64()] *)
Definition NumberU64 (h : Header) : Z := uint64.of_big (Number h).

End types.

Export types.

(** ** package common *)

Module common.

(** The zero value [common.Hash{}]. *)
Definition zeroHash : Z := 0.

(** [common.BytesToHash(it.Key())] on a 41-byte key
    ["h" ++ number ++ hash]: bytes beyond 32 are cropped from the left,
    which leaves the hash. *)
Definition BytesToHash_key (key : Z * Z) : Z := key.2.

End common.

(** ** package rawdb over an in-memory key-value store *)

Module rawdb.

(** Modelled from the spec: the key-value schema and the accessors of
    package [rawdb] and the in-memory store behind [ethdb.Database] are not
    among the sources.  The spec's Header Store has a mapping from a hash to
    its header, a secondary index from a hash to its number, and a head
    pointer; the container's calls fix how they are addressed: a header is
    read by (hash, number), the hashes of one number are enumerated, and the
    keys under prefix ["h"] are iterated in key order, each ending in the
    hash.  [headerTable] holds keys ["h" ++ number ++ hash], [numberTable]
    keys ["H" ++ hash] and [headHeader] the key ["LastHeader"]. *)
Record Database : Type := mkDatabase {
  headerTable : gmap (Z * Z) Header;
  numberTable : gmap Z Z;
  headHeader : option Z
}.

(** Modelled from the spec: [rawdb.headerKey], the key a header is stored
    under, its number and then its hash. *)
Definition headerKey (Hash : Header -> Z) (header : Header) : Z * Z :=
  (NumberU64 header, Hash header).

(** Modelled from the spec: [rawdb.NewMemoryDatabase()], the empty store
    ("created empty at subsystem start"). *)
Definition NewMemoryDatabase : Database :=
  {| headerTable := ∅; numberTable := ∅; headHeader := None |}.

(** Modelled from the spec: the order of the "ordered-by-number keyed
    store".  Keys ["h" ++ number ++ hash] hold the number big-endian and of
    fixed width, so they compare by number first, then by hash.  The order
    among the keys of one number is a choice of this model: the spec leaves
    it open. *)
Definition key_le (k1 k2 : Z * Z) : Prop :=
  k1.1 < k2.1 \/ (k1.1 = k2.1 /\ k1.2 <= k2.2).

#[global] Instance key_le_dec : RelDecision key_le.
Proof. intros k1 k2; unfold key_le; apply _. Defined.

(** Modelled from the spec: [db.NewIterator([]byte("h"), nil)], the keys
    under prefix ["h"] in ascending key order (the store is "ordered by
    number"; its iterator is finite and restartable). *)
Definition NewIterator_h (db : Database) : list (Z * Z) :=
  merge_sort key_le (map_to_list (headerTable db)).*1.

(** Modelled from the spec: [rawdb.WriteHeader], "inserts/overwrites header
    by hash; updates the hash->number index".  The hash is a parameter:
    [header.Hash()] is a digest of the header's content. *)
Definition WriteHeader (Hash : Header -> Z) (db : Database) (header : Header)
  : Database :=
  let hash := Hash header in
  let number := NumberU64 header in
  {| headerTable := <[headerKey Hash header := header]> (headerTable db);
     numberTable := <[hash := number]> (numberTable db);
     headHeader := headHeader db |}.

(** Modelled from the spec: [rawdb.WriteHeadHeaderHash], "sets head". *)
Definition WriteHeadHeaderHash (db : Database) (hash : Z) : Database :=
  {| headerTable := headerTable db;
     numberTable := numberTable db;
     headHeader := Some hash |}.

(** Modelled from the spec: [rawdb.ReadHeadHeaderHash], the head, or the
    zero hash when no head was ever written. *)
Definition ReadHeadHeaderHash (db : Database) : Z :=
  match headHeader db with
  | Some hash => hash
  | None => common.zeroHash
  end.

(** Modelled from the spec: [rawdb.ReadHeaderNumber], "NumberOf(hash) ->
    number|absent". *)
Definition ReadHeaderNumber (db : Database) (hash : Z) : option Z :=
  numberTable db !! hash.

(** Modelled from the spec: [rawdb.ReadHeader], the header stored under
    (number, hash), or nil. *)
Definition ReadHeader (db : Database) (hash number : Z) : option Header :=
  headerTable db !! (number, hash).

(** Modelled from the spec: [rawdb.ReadAllHashes], "an internal hash
    enumeration for that number": the hashes of the keys under prefix
    ["h" ++ number], in key order. *)
Definition ReadAllHashes (db : Database) (number : Z) : list Z :=
  (filter (fun k : Z * Z => k.1 = number) (NewIterator_h db)).*2.

End rawdb.

(** ** package event *)

Module event.

(** Modelled from the spec: [event.Feed] is not among the sources.  The
    Notification Channel has "Subscribe() -> handle" and "delivers a header
    written event payload of the written header" to every subscriber.  A
    feed is the list of its subscribers' inboxes, in subscription order. *)
Definition Feed : Type := list (list Header).

(** Modelled from the spec: the zero value of [event.Feed], a feed without
    subscribers. *)
Definition zero : Feed := [].

(** Modelled from the spec: [Feed.Subscribe], "Subscribe() -> handle"; the
    new subscriber has received nothing yet. *)
Definition Subscribe (feed : Feed) : Feed := feed ++ [[]].

(** Modelled from the spec: [Feed.Send], one event carrying the header to
    every current subscriber. *)
Definition Send (feed : Feed) (header : Header) : Feed :=
  map (fun inbox => inbox ++ [header]) feed.

End event.

(** ** package core: the pending-header container *)

Module core.

Record PandoraPendingHeaderContainer : Type := mkContainer {
  headerContainer : rawdb.Database;
  pndHeaderFeed : event.Feed
}.

Definition NewPandoraPendingHeaderContainer : PandoraPendingHeaderContainer :=
  {| headerContainer := rawdb.NewMemoryDatabase;
     pndHeaderFeed := event.zero |}.

Section Writes.

(** [header.Hash()] *)
Variable Hash : Header -> Z.

Definition WriteHeader (container : PandoraPendingHeaderContainer)
  (header : Header) : PandoraPendingHeaderContainer :=
  let db := rawdb.WriteHeader Hash (headerContainer container) header in
  let db := rawdb.WriteHeadHeaderHash db (Hash header) in
  {| headerContainer := db; pndHeaderFeed := pndHeaderFeed container |}.

Definition WriteHeaderBatch (container : PandoraPendingHeaderContainer)
  (headers : list Header) : PandoraPendingHeaderContainer :=
  fold_left WriteHeader headers container.

End Writes.

Definition readHeader (container : PandoraPendingHeaderContainer)
  (headerNumber : Z) : option Header :=
  let hashes := rawdb.ReadAllHashes (headerContainer container) headerNumber in
  match hashes with
  | [] => None
  | hash :: _ => rawdb.ReadHeader (headerContainer container) hash headerNumber
  end.

(** The body of [for it.Next() { ... }] in [readAllHeaders]; [it] is what
    the iterator has yet to yield. *)
Fixpoint readAllHeaders_loop (container : PandoraPendingHeaderContainer)
  (it : list (Z * Z)) (headers : list (option Header))
  : list (option Header) :=
  match it with
  | [] => headers
  | key :: it' =>
      let headerHash := common.BytesToHash_key key in
      match rawdb.ReadHeaderNumber (headerContainer container) headerHash with
      | None => headers
      | Some headerNumber =>
          readAllHeaders_loop container it'
            (headers ++
             [rawdb.ReadHeader (headerContainer container) headerHash
                headerNumber])
      end
  end.

Definition readAllHeaders (container : PandoraPendingHeaderContainer)
  : list (option Header) :=
  readAllHeaders_loop container
    (rawdb.NewIterator_h (headerContainer container)) [].

(** [for i := *fromHeaderNumber; i <= *lastHeaderNumber; i++ { ... }] with
    [i] a [uint64]. *)
Fixpoint ReadHeaderSince_loop (fuel : nat)
  (container : PandoraPendingHeaderContainer) (i last : Z)
  (headers : list (option Header)) : option (list (option Header)) :=
  match fuel with
  | O => None
  | S fuel' =>
      if i <=? last then
        let header := readHeader container i in
        let headers :=
          match header with
          | Some _ => headers ++ [header]
          | None => headers
          end in
        ReadHeaderSince_loop fuel' container (uint64.incr i) last headers
      else Some headers
  end.

Definition ReadHeaderSince (fuel : nat)
  (container : PandoraPendingHeaderContainer) (from : Z)
  : option (list (option Header)) :=
  let db := headerContainer container in
  let fromHeaderNumber := rawdb.ReadHeaderNumber db from in
  let lastHeaderNumber :=
    rawdb.ReadHeaderNumber db (rawdb.ReadHeadHeaderHash db) in
  match fromHeaderNumber with
  | None => Some (readAllHeaders container)
  | Some fromNumber =>
      match lastHeaderNumber with
      | None => Some []
      | Some lastNumber =>
          ReadHeaderSince_loop fuel container fromNumber lastNumber []
      end
  end.

(** The spec's range read, step 3 of [ReadHeaderSince]: the headers of the
    numbers [k], [k+1], ..., [n] that resolve, in ascending order, the
    numbers without a header skipped. *)
Definition range_headers (container : PandoraPendingHeaderContainer)
  (k n : Z) : list (option Header) :=
  filter is_Some (readHeader container <$> seqZ k (n - k + 1)).

(** The headers the store holds, in no particular order. *)
Definition staged (container : PandoraPendingHeaderContainer) : list Header :=
  (map_to_list (rawdb.headerTable (headerContainer container))).*2.

Section Reachable.

Variable Hash : Header -> Z.

(** [written hs db]: [db] is the store of a container that started empty
    and was given the headers [hs], oldest first, by [WriteHeader]. *)
Inductive written : list Header -> rawdb.Database -> Prop :=
| written_nil : written [] rawdb.NewMemoryDatabase
| written_snoc hs db h :
    written hs db ->
    written (hs ++ [h])
      (rawdb.WriteHeadHeaderHash (rawdb.WriteHeader Hash db h) (Hash h)).

Definition reachable (container : PandoraPendingHeaderContainer) : Prop :=
  exists hs, written hs (headerContainer container).

(** What the store of a container holds once it was given [hs]: the header
    table has exactly the headers of [hs] under their keys, the number index
    has exactly their hashes, and the head is the last one written. *)
Record store_invariant (hs : list Header) (db : rawdb.Database) : Prop := {
  inv_header : forall n hash h,
    rawdb.headerTable db !! (n, hash) = Some h <->
    h ∈ hs /\ Hash h = hash /\ NumberU64 h = n;
  inv_number : forall hash n,
    rawdb.numberTable db !! hash = Some n <->
    exists h, h ∈ hs /\ Hash h = hash /\ NumberU64 h = n;
  inv_head : rawdb.headHeader db = last (Hash <$> hs)
}.

End Reachable.

(** Every header the store holds has its hash in the number index. *)
Definition indexed (db : rawdb.Database) : Prop :=
  forall n hash h,
    rawdb.headerTable db !! (n, hash) = Some h ->
    is_Some (rawdb.ReadHeaderNumber db hash).

(** What a notification fired by a write would do to the feed. *)
Definition fires_header_arrived (before after : PandoraPendingHeaderContainer)
  (header : Header) : Prop :=
  pndHeaderFeed after = event.Send (pndHeaderFeed before) header.

(** The numbers of the non-nil entries of a returned sequence, in order. *)
Definition numbers (headers : list (option Header)) : list Z :=
  NumberU64 <$> omap id headers.

(** A returned sequence is non-decreasing in header number. *)
Definition non_decreasing (headers : list (option Header)) : Prop :=
  Sorted Z.le (numbers headers).

(** A returned sequence has at most one header per number. *)
Definition one_per_number (headers : list (option Header)) : Prop :=
  NoDup (numbers headers).

(** The digest does not collide on the headers [hs]. *)
Definition collision_free (Hash : Header -> Z) (hs : list Header) : Prop :=
  forall h1 h2, h1 ∈ hs -> h2 ∈ hs -> Hash h1 = Hash h2 -> h1 = h2.

(** No header hashes to the zero hash. *)
Definition never_zero (Hash : Header -> Z) : Prop :=
  forall h, Hash h <> common.zeroHash.

End core.

(** ** package pandora_orcclient: the reference orchestrator service *)

Module pandora_orcclient.

(** Modelled from the spec: the type [Status] is declared outside the
    sources; its values are the three constants declared here, "status:
    enum{Pending, Verified, Invalid}". *)
Inductive Status : Type := Pending | Verified | Invalid.

(** [const ( Pending Status = iota; Verified; Invalid )] *)
Definition Status_value (s : Status) : Z :=
  match s with
  | Pending => 0
  | Verified => 1
  | Invalid => 2
  end.

Definition MockedHashInvalid : string :=
  "0xc9a190eb52c18df5ffcb1d817214ecb08f025f8583805cd12064d30e3f9bd9d5".
Definition MockedHashPending : string :=
  "0xa99c69a301564970956edd897ff0590f4c0f1031daa464ded655af65ad0906df".

(** Modelled from the spec: [BlockHash], "{hash: digest, slot: integer}",
    and [BlockStatus], "{BlockHash, status}", are declared outside the
    sources; the fields are those the service reads and builds. *)
Record BlockHash : Type := mkBlockHash {
  Slot : Z;
  Hash : Z
}.

Record BlockStatus : Type := mkBlockStatus {
  BlockStatus_BlockHash : BlockHash;
  BlockStatus_Status : Status
}.

Definition hash_modulus : Z := 2 ^ 256.

Definition hexDigit (d : Z) : ascii :=
  match d with
  | 0 => "0" | 1 => "1" | 2 => "2" | 3 => "3"
  | 4 => "4" | 5 => "5" | 6 => "6" | 7 => "7"
  | 8 => "8" | 9 => "9" | 10 => "a" | 11 => "b"
  | 12 => "c" | 13 => "d" | 14 => "e" | _ => "f"
  end%char.

Definition hexValue (c : ascii) : option Z :=
  (if Ascii.eqb c "0" then Some 0 else if Ascii.eqb c "1" then Some 1
   else if Ascii.eqb c "2" then Some 2 else if Ascii.eqb c "3" then Some 3
   else if Ascii.eqb c "4" then Some 4 else if Ascii.eqb c "5" then Some 5
   else if Ascii.eqb c "6" then Some 6 else if Ascii.eqb c "7" then Some 7
   else if Ascii.eqb c "8" then Some 8 else if Ascii.eqb c "9" then Some 9
   else if Ascii.eqb c "a" then Some 10 else if Ascii.eqb c "b" then Some 11
   else if Ascii.eqb c "c" then Some 12 else if Ascii.eqb c "d" then Some 13
   else if Ascii.eqb c "e" then Some 14 else if Ascii.eqb c "f" then Some 15
   else None)%char.

(** The [digits] low hex digits of [x], most significant first. *)
Fixpoint hexEncode (digits : nat) (x : Z) : string :=
  match digits with
  | O => EmptyString
  | S d =>
      String (hexDigit ((x / 16 ^ Z.of_nat d) mod 16)) (hexEncode d x)
  end.

(** The number a string of hex digits spells, continuing from [acc];
    reading stops at a character that is no lower-case hex digit. *)
Fixpoint hexDecode (s : string) (acc : Z) : Z :=
  match s with
  | EmptyString => acc
  | String c s' =>
      match hexValue c with
      | Some v => hexDecode s' (acc * 16 + v)
      | None => acc
      end
  end.

(** Modelled from the spec: [common.Hash.String], the hash "serialized in
    its canonical hex form": ["0x"] and 64 lower-case hex digits. *)
Definition Hash_String (h : Z) : string :=
  String "0" (String "x" (hexEncode 64 h)).

(** Modelled from the spec: [common.HexToHash] on a ["0x"]-prefixed string
    of lower-case hex digits, as the two constants above are. *)
Definition HexToHash (s : string) : Z :=
  match s with
  | String "0" (String "x" digits) => hexDecode digits 0 mod hash_modulus
  | _ => hexDecode s 0 mod hash_modulus
  end.

Inductive result (A : Type) : Type :=
| Ok (response : A)
| Err (err : string).

Arguments Ok {A} response.
Arguments Err {A} err.

(** The status the service gives one request item. *)
Definition status_of (blockRequest : BlockHash) : Status :=
  let status := Verified in
  let status :=
    if String.eqb MockedHashInvalid (Hash_String (Hash blockRequest))
    then Invalid else status in
  let status :=
    if String.eqb MockedHashPending (Hash_String (Hash blockRequest))
    then Pending else status in
  status.

(** [ConfirmPanBlockHashes] of [mockOrchestratorService]; request items
    are non-nil. *)
Definition ConfirmPanBlockHashes (request : list BlockHash)
  : result (list BlockStatus) :=
  if Z.of_nat (length request) <? 1 then Err "request has empty slice"
  else
    Ok (fold_left
          (fun response blockRequest =>
             response ++
             [{| BlockStatus_BlockHash :=
                   {| Slot := Slot blockRequest; Hash := Hash blockRequest |};
                 BlockStatus_Status := status_of blockRequest |}])
          request []).

(** Modelled from the spec: [OrcClient.GetConfirmedPanBlockHashes], the
    client the test dials in process, is not among the sources.  "An empty
    request is rejected with an input error: empty request", "never sent
    over the wire"; any other request is carried to the service, whose
    answer is returned.  [wire] records the requests sent so far. *)
Definition GetConfirmedPanBlockHashes (wire : list (list BlockHash))
  (request : list BlockHash)
  : result (list BlockStatus) * list (list BlockHash) :=
  if Z.of_nat (length request) <? 1 then (Err "empty request", wire)
  else (ConfirmPanBlockHashes request, wire ++ [request]).

(** The hashes the reference authority knows as invalid and as pending. *)
Definition knownInvalid : Z := HexToHash MockedHashInvalid.
Definition knownPending : Z := HexToHash MockedHashPending.

(** The reference policy in the spec's words: "match against its own
    known-invalid set, known-pending set, else Verified". *)
Definition reference_policy (h : Z) : Status :=
  if decide (h = knownInvalid) then Invalid
  else if decide (h = knownPending) then Pending
  else Verified.

(** The answer the spec asks of a successful exchange: one status per
    request item, matched by position. *)
Definition answers (request : list BlockHash) (response : list BlockStatus)
  : Prop :=
  length response = length request /\
  forall (i : nat) (item : BlockHash),
    request !! i = Some item ->
    exists st : BlockStatus,
      response !! i = Some st /\
      BlockStatus_BlockHash st = item /\
      (BlockStatus_Status st = Pending \/
       BlockStatus_Status st = Verified \/
       BlockStatus_Status st = Invalid).

End pandora_orcclient.

(** ** package main of the miner stress test: the genesis it builds *)

Module stress.

Section Keys.

(** [*ecdsa.PrivateKey] and [*vbls.PublicKey]: the harness never looks
    inside a key. *)
Variables PrivateKey PublicKey : Type.

(** [crypto.PubkeyToAddress(faucet.PublicKey)], the address of a faucet. *)
Variable PubkeyToAddress : PrivateKey -> Z.

(** The fields of [params.ChainConfig] and of [core.Genesis] that
    [makeGenesis] does not assign. *)
Variables ConfigRest GenesisRest : Type.

(** [params.MinimalEpochConsensusInfo] is declared outside the sources;
    the fields are those the composite literal of [makeGenesis] sets. *)
Record MinimalEpochConsensusInfo : Type := mkInfo {
  Epoch : Z;
  ValidatorsList : list PublicKey;
  EpochTimeStart : Z;
  SlotTimeDuration : Z
}.

(** The cells that [&params.MinimalEpochConsensusInfo{...}] allocates; a
    pointer is the position of its cell. *)
Definition Heap : Type := list MinimalEpochConsensusInfo.

(** [&params.MinimalEpochConsensusInfo{...}]: a fresh cell and its pointer. *)
Definition new (heap : Heap) (info : MinimalEpochConsensusInfo) : Heap * nat :=
  (heap ++ [info], length heap).

(** [p.EpochTimeStart = t] through the pointer [p]: every holder of [p]
    sees the new value. *)
Definition set_EpochTimeStart (heap : Heap) (p : nat) (t : Z) : Heap :=
  alter (fun info =>
           {| Epoch := Epoch info;
              ValidatorsList := ValidatorsList info;
              EpochTimeStart := t;
              SlotTimeDuration := SlotTimeDuration info |}) p heap.

(** [params.ChainConfig] and [core.Genesis] are declared outside the
    sources; the fields are those [makeGenesis] assigns.  [PandoraConfig]
    is the [ConsensusInfo] slice of the config it points to, a slice of
    pointers. *)
Record ChainConfig : Type := mkChainConfig {
  ChainID : Z;
  EIP150Hash : Z;
  SilesiaBlock : option Z;
  PandoraConfig : option (list (option nat));
  ChainConfig_rest : ConfigRest
}.

Record Genesis : Type := mkGenesis {
  Config : ChainConfig;
  Difficulty : Z;
  GasLimit : Z;
  Alloc : gmap Z Z;
  Genesis_rest : GenesisRest
}.

(** One round of [for index, consensusInfo := range consensusInfos]: the
    array gets the pointer first, and from the second round on the cell is
    changed through it afterwards. *)
Definition makeGenesis_round (sealers : list PublicKey)
  (genesisEpochStart : Z) (state : Heap * list (option nat)) (index : Z)
  : Heap * list (option nat) :=
  let '(heap, consensusInfos) := state in
  let '(heap, consensusInfo) :=
    new heap {| Epoch := index mod uint64.modulus;
                ValidatorsList := sealers;
                EpochTimeStart := genesisEpochStart;
                SlotTimeDuration := 6 |} in
  let consensusInfos :=
    <[Z.to_nat index := Some consensusInfo]> consensusInfos in
  if index <? 1 then (heap, consensusInfos)
  else
    (set_EpochTimeStart heap consensusInfo
       ((genesisEpochStart + (index * 6) mod uint64.modulus)
        mod uint64.modulus),
     consensusInfos).

(** [makeGenesis]; [ropsten] is what [core.DefaultRopstenGenesisBlock()]
    returns, [MinimumDifficulty] is [params.MinimumDifficulty], [timeNow] is
    [time.Now().Unix()] and [heap] holds the cells allocated so far.  The
    result is the heap and the genesis. *)
Definition makeGenesis (ropsten : Genesis) (MinimumDifficulty : Z)
  (timeNow : Z) (heap : Heap) (faucets : list PrivateKey)
  (sealers : list PublicKey) : Heap * Genesis :=
  let genesisEpochStart := timeNow mod uint64.modulus in
  let '(heap, consensusInfos) :=
    fold_left (makeGenesis_round sealers genesisEpochStart)
      [0; 1; 2; 3] (heap, [None; None; None; None]) in
  let alloc :=
    fold_left
      (fun alloc faucet => <[PubkeyToAddress faucet := 2 ^ 128]> alloc)
      faucets (∅ : gmap Z Z) in
  (heap,
   {| Config :=
        {| ChainID := 18;
           EIP150Hash := common.zeroHash;
           SilesiaBlock := Some 0;
           PandoraConfig := Some consensusInfos;
           ChainConfig_rest := ChainConfig_rest (Config ropsten) |};
      Difficulty := MinimumDifficulty;
      GasLimit := 25000000;
      Alloc := alloc;
      Genesis_rest := Genesis_rest ropsten |}).

(** Epoch [i] of a schedule that starts at [timeNow] and gives every epoch
    the length of one slot of 6 seconds. *)
Definition scheduled (sealers : list PublicKey) (timeNow i : Z)
  : MinimalEpochConsensusInfo :=
  {| Epoch := i;
     ValidatorsList := sealers;
     EpochTimeStart := (timeNow + 6 * i) mod uint64.modulus;
     SlotTimeDuration := 6 |}.

(** [genesis.Config.PandoraConfig.ConsensusInfo[i]], read through its
    pointer; [None] where Go would panic. *)
Definition ConsensusInfo_at (result : Heap * Genesis) (i : nat)
  : option MinimalEpochConsensusInfo :=
  consensusInfos ← PandoraConfig (Config result.2);
  p ← consensusInfos !! i;
  p ← p;
  result.1 !! p.

End Keys.

End stress.

(** ** Concrete inputs *)

(** A collision-free stand-in for the digest, used to run the container on
    concrete headers. *)
Definition toyHash (h : Header) : Z :=
  Z.pos (encode (ParentHash h, Number h, Time h)).

Definition hdr (n t : Z) : Header := mkHeader 0 n t.

(** Two headers that share the number 2, and one of the largest number. *)
Definition hA : Header := hdr 2 0.
Definition hB : Header := hdr 2 1.
Definition hMax : Header := hdr uint64.max 0.

(** An empty container with one subscriber on its feed. *)
Definition subscribed : core.PandoraPendingHeaderContainer :=
  {| core.headerContainer := rawdb.NewMemoryDatabase;
     core.pndHeaderFeed := event.Subscribe event.zero |}.

(** The container after [WriteHeaderBatch([hA, hB])]. *)
Definition stagedAB : core.PandoraPendingHeaderContainer :=
  core.WriteHeaderBatch toyHash core.NewPandoraPendingHeaderContainer [hA; hB].

(** Headers numbered 1, 3 and 4, and the container that was given them:
    the number 2 has no header. *)
Definition sparse : list Header := [hdr 1 0; hdr 3 0; hdr 4 0].
Definition stagedSparse : core.PandoraPendingHeaderContainer :=
  core.WriteHeaderBatch toyHash core.NewPandoraPendingHeaderContainer sparse.

(** Headers numbered 5 and then 3, written in that order: the head is the
    header numbered 3. *)
Definition descending : list Header := [hdr 5 0; hdr 3 0].
Definition stagedDescending : core.PandoraPendingHeaderContainer :=
  core.WriteHeaderBatch toyHash core.NewPandoraPendingHeaderContainer
    descending.

(** The request of [TestOrcClient_GetConfirmedPanBlockHashes]. *)
Definition testRequest : list pandora_orcclient.BlockHash :=
  [pandora_orcclient.mkBlockHash 1 pandora_orcclient.knownInvalid;
   pandora_orcclient.mkBlockHash 2 pandora_orcclient.knownPending].


(** * The store behind the container *)

Section Store.

Import rawdb.

#[local] Instance key_le_total : Total key_le.
Proof. intros [a b] [c d]. unfold key_le. cbn. lia. Qed.

#[local] Instance key_le_trans : Transitive key_le.
Proof. intros [a b] [c d] [e f]. unfold key_le. cbn. lia. Qed.

Lemma NewIterator_h_sorted (db : Database) :
  StronglySorted key_le (NewIterator_h db).
Proof. apply StronglySorted_merge_sort; apply _. Qed.

Lemma elem_of_NewIterator_h (db : Database) (k : Z * Z) :
  k ∈ NewIterator_h db <-> is_Some (headerTable db !! k).
Proof.
  unfold NewIterator_h. rewrite merge_sort_Permutation, list_elem_of_fmap.
  split.
  - intros ([k' h] & -> & Hin). apply elem_of_map_to_list in Hin. eauto.
  - intros [h Hh]. exists (k, h). split; [reflexivity|].
    apply elem_of_map_to_list, Hh.
Qed.

Lemma NoDup_NewIterator_h (db : Database) : NoDup (NewIterator_h db).
Proof.
  unfold NewIterator_h. rewrite merge_sort_Permutation.
  apply NoDup_fst_map_to_list.
Qed.

Lemma NewIterator_h_empty : NewIterator_h NewMemoryDatabase = [].
Proof.
  apply Permutation_nil_r. unfold NewIterator_h.
  rewrite merge_sort_Permutation. cbn [headerTable NewMemoryDatabase].
  rewrite map_to_list_empty. reflexivity.
Qed.

(** The iterator, read through the table, yields the stored headers. *)
Lemma lookup_NewIterator_h (db : Database) :
  (fun k => headerTable db !! k) <$> NewIterator_h db
  ≡ₚ Some <$> (map_to_list (headerTable db)).*2.
Proof.
  unfold NewIterator_h. rewrite merge_sort_Permutation.
  rewrite <- !list_fmap_compose.
  erewrite Forall_fmap_ext_1; [reflexivity|].
  apply Forall_forall. intros [k h] Hin. cbn.
  apply elem_of_map_to_list, Hin.
Qed.

Section WithHash.

Variable Hash : Header -> Z.

Lemma collision_free_app_l (hs hs' : list Header) :
  core.collision_free Hash (hs ++ hs') -> core.collision_free Hash hs.
Proof.
  intros Hcf h1 h2 H1 H2. apply Hcf; apply elem_of_app; left; assumption.
Qed.

Lemma written_invariant (hs : list Header) (db : Database) :
  core.written Hash hs db ->
  core.collision_free Hash hs ->
  core.store_invariant Hash hs db.
Proof.
  induction 1 as [|hs db h0 Hw IH]; intros Hcf.
  - split.
    + intros n hash h. cbn. rewrite lookup_empty, elem_of_nil.
      split; [discriminate|tauto].
    + intros hash n. cbn. rewrite lookup_empty. split; [discriminate|].
      intros (h & Hin & _). apply elem_of_nil in Hin. destruct Hin.
    + reflexivity.
  - destruct (IH (collision_free_app_l _ _ Hcf)) as [IHh IHn IHd].
    assert (Hlast : h0 ∈ hs ++ [h0]).
    { apply elem_of_app. right. apply list_elem_of_singleton. reflexivity. }
    assert (Hsame : forall h, h ∈ hs ++ [h0] -> Hash h = Hash h0 -> h = h0).
    { intros h Hin Hh. apply Hcf; assumption. }
    split.
    + intros n hash h. cbn. unfold headerKey.
      destruct (decide ((NumberU64 h0, Hash h0) = (n, hash))) as [Heq|Hne].
      * injection Heq as <- <-. rewrite lookup_insert_eq. split.
        -- intros [= <-]. tauto.
        -- intros (Hin & Hh & _). apply Hsame in Hh; [congruence|exact Hin].
      * rewrite lookup_insert_ne by exact Hne. rewrite IHh. split.
        -- intros (Hin & Hh & Hn). split; [|tauto].
           apply elem_of_app. left. exact Hin.
        -- intros (Hin & Hh & Hn). split; [|tauto].
           apply elem_of_app in Hin as [Hin|Hin]; [exact Hin|].
           apply list_elem_of_singleton in Hin. subst h. congruence.
    + intros hash n. cbn.
      destruct (decide (Hash h0 = hash)) as [<-|Hne].
      * rewrite lookup_insert_eq. split.
        -- intros [= <-]. exists h0. tauto.
        -- intros (h & Hin & Hh & Hn). apply Hsame in Hh; [congruence|exact Hin].
      * rewrite lookup_insert_ne by exact Hne. rewrite IHn. split.
        -- intros (h & Hin & Hh & Hn). exists h. split; [|tauto].
           apply elem_of_app. left. exact Hin.
        -- intros (h & Hin & Hh & Hn). exists h. split; [|tauto].
           apply elem_of_app in Hin as [Hin|Hin]; [exact Hin|].
           apply list_elem_of_singleton in Hin. subst h. congruence.
    + rewrite fmap_app. change (Hash <$> [h0]) with [Hash h0].
      rewrite last_snoc. reflexivity.
Qed.

End WithHash.

End Store.

(** * Sorted lists *)

Section Sorted.

Lemma StronglySorted_filter {A : Type} (R : relation A) (P : A -> Prop)
  `{!forall x, Decision (P x)} (l : list A) :
  StronglySorted R l -> StronglySorted R (filter P l).
Proof.
  induction 1 as [|x l Hl IH Hx]; [constructor|].
  rewrite filter_cons. case_decide; [|exact IH].
  constructor; [exact IH|].
  apply Forall_forall. intros y Hy. apply list_elem_of_filter in Hy as [_ Hy].
  rewrite Forall_forall in Hx. apply Hx, Hy.
Qed.

Lemma StronglySorted_seqZ (m len : Z) : StronglySorted Z.lt (seqZ m len).
Proof.
  remember (Z.to_nat len) as n eqn:Hn. revert m len Hn.
  induction n as [|n IH]; intros m len Hn.
  - unfold seqZ. rewrite <- Hn. constructor.
  - rewrite seqZ_cons by lia. constructor.
    + apply IH. lia.
    + apply Forall_forall. intros i Hi. apply elem_of_seqZ in Hi. lia.
Qed.

Lemma StronglySorted_lt_NoDup (l : list Z) : StronglySorted Z.lt l -> NoDup l.
Proof.
  induction 1 as [|x l Hl IH Hx]; constructor; [|exact IH].
  intros Hin. rewrite Forall_forall in Hx. apply Hx in Hin. lia.
Qed.

Lemma StronglySorted_lt_le (l : list Z) :
  StronglySorted Z.lt l -> Sorted Z.le l.
Proof.
  intros Hl. apply StronglySorted_Sorted.
  induction Hl as [|x l Hl IH Hx]; constructor; [exact IH|].
  eapply Forall_impl; [exact Hx|]. intros y Hy. cbn in Hy. lia.
Qed.

End Sorted.

(** * The pending-header container *)

Section Container.

Import rawdb core.

Lemma modulus_eq : uint64.modulus = 18446744073709551616.
Proof. reflexivity. Qed.

Lemma NumberU64_range (h : Header) : uint64.in_range (NumberU64 h).
Proof.
  unfold uint64.in_range, NumberU64, uint64.of_big.
  apply Z.mod_pos_bound. rewrite modulus_eq. lia.
Qed.

Lemma numbers_cons_Some (h : Header) (headers : list (option Header)) :
  numbers (Some h :: headers) = NumberU64 h :: numbers headers.
Proof. reflexivity. Qed.

Lemma numbers_fmap_Some (l : list Header) :
  numbers (Some <$> l) = NumberU64 <$> l.
Proof.
  induction l as [|h l IH]; [reflexivity|].
  rewrite fmap_cons, numbers_cons_Some, IH. reflexivity.
Qed.

(** *** The range loop *)

Lemma seqZ_nonpos (m n : Z) : n <= 0 -> seqZ m n = [].
Proof.
  intros Hn. unfold seqZ. replace (Z.to_nat n) with 0%nat by lia. reflexivity.
Qed.

Lemma range_headers_empty (c : PandoraPendingHeaderContainer) (i last : Z) :
  last < i -> range_headers c i last = [].
Proof.
  intros Hlt. unfold range_headers. rewrite seqZ_nonpos by lia. reflexivity.
Qed.

Lemma range_headers_step (c : PandoraPendingHeaderContainer) (i last : Z) :
  i <= last ->
  range_headers c i last =
  match readHeader c i with
  | Some h => Some h :: range_headers c (i + 1) last
  | None => range_headers c (i + 1) last
  end.
Proof.
  intros Hle. unfold range_headers. rewrite (seqZ_cons i) by lia.
  replace (Z.succ i) with (i + 1) by lia.
  replace (Z.pred (last - i + 1)) with (last - (i + 1) + 1) by lia.
  rewrite fmap_cons, filter_cons.
  destruct (readHeader c i) as [h|]; case_decide as Hd.
  - reflexivity.
  - exfalso. apply Hd. eauto.
  - exfalso. destruct Hd as [h Hh]. discriminate.
  - reflexivity.
Qed.

(** Below the largest [uint64] the loop runs [last + 1 - i] times and then
    leaves with the range read; with less fuel it is still running. *)
Lemma ReadHeaderSince_loop_spec (c : PandoraPendingHeaderContainer) (last : Z) :
  last < uint64.max ->
  forall (fuel : nat) (i : Z) (acc : list (option Header)),
    0 <= i ->
    ReadHeaderSince_loop fuel c i last acc =
    if decide (Z.to_nat (last + 1 - i) < fuel)%nat
    then Some (acc ++ range_headers c i last) else None.
Proof.
  intros Hlast. unfold uint64.max in Hlast. rewrite modulus_eq in Hlast.
  induction fuel as [|fuel IH]; intros i acc Hi.
  - cbn [ReadHeaderSince_loop]. case_decide; [lia|reflexivity].
  - cbn [ReadHeaderSince_loop]. destruct (Z.leb_spec i last) as [Hle|Hgt].
    + assert (Hincr : uint64.incr i = i + 1).
      { unfold uint64.incr. apply Z.mod_small. rewrite modulus_eq. lia. }
      rewrite Hincr, IH by lia.
      rewrite (range_headers_step c i last) by exact Hle.
      destruct (readHeader c i) as [h|]; repeat case_decide; try lia;
        rewrite <- ?app_assoc; reflexivity.
    + rewrite range_headers_empty, app_nil_r by lia.
      case_decide; [reflexivity|lia].
Qed.

(** At the largest [uint64] the condition [i <= last] never fails and the
    increment wraps around: no amount of fuel lets the loop leave. *)
Lemma ReadHeaderSince_loop_max (c : PandoraPendingHeaderContainer) :
  forall (fuel : nat) (i : Z) (acc : list (option Header)),
    uint64.in_range i ->
    ReadHeaderSince_loop fuel c i uint64.max acc = None.
Proof.
  induction fuel as [|fuel IH]; intros i acc Hi; [reflexivity|].
  cbn [ReadHeaderSince_loop].
  replace (i <=? uint64.max) with true
    by (symmetry; apply Z.leb_le; unfold uint64.in_range, uint64.max in *; lia).
  apply IH. unfold uint64.in_range, uint64.incr.
  apply Z.mod_pos_bound. rewrite modulus_eq. lia.
Qed.

Lemma ReadHeaderSince_unresolved (c : PandoraPendingHeaderContainer)
  (from : Z) (fuel : nat) :
  ReadHeaderNumber (headerContainer c) from = None ->
  ReadHeaderSince fuel c from = Some (readAllHeaders c).
Proof. intros Hfrom. unfold ReadHeaderSince. rewrite Hfrom. reflexivity. Qed.

Lemma ReadHeaderSince_resolved (c : PandoraPendingHeaderContainer)
  (from k n : Z) (fuel : nat) :
  ReadHeaderNumber (headerContainer c) from = Some k ->
  ReadHeaderNumber (headerContainer c)
    (ReadHeadHeaderHash (headerContainer c)) = Some n ->
  ReadHeaderSince fuel c from = ReadHeaderSince_loop fuel c k n [].
Proof.
  intros Hfrom Hlast. unfold ReadHeaderSince. rewrite Hfrom, Hlast.
  reflexivity.
Qed.

(** *** The full snapshot *)

Lemma readAllHeaders_loop_lookup (c : PandoraPendingHeaderContainer)
  (it : list (Z * Z)) (acc : list (option Header)) :
  (forall k, k ∈ it -> numberTable (headerContainer c) !! k.2 = Some k.1) ->
  readAllHeaders_loop c it acc =
  acc ++ ((fun k => headerTable (headerContainer c) !! k) <$> it).
Proof.
  revert acc. induction it as [|[n hash] it IH]; intros acc Hit.
  - cbn. symmetry. apply app_nil_r.
  - cbn [readAllHeaders_loop]. unfold common.BytesToHash_key, ReadHeaderNumber.
    rewrite (Hit (n, hash)) by (apply elem_of_cons; left; reflexivity).
    cbn [fst snd]. rewrite IH.
    + rewrite <- app_assoc. reflexivity.
    + intros k Hk. apply Hit, elem_of_cons. right. exact Hk.
Qed.

Section WithHash.

Variable Hash : Header -> Z.
Variable hs : list Header.
Variable c : PandoraPendingHeaderContainer.
Hypothesis Hinv : store_invariant Hash hs (headerContainer c).

Lemma iterator_key (k : Z * Z) :
  k ∈ NewIterator_h (headerContainer c) <->
  exists h, h ∈ hs /\ k = headerKey Hash h.
Proof.
  rewrite elem_of_NewIterator_h. destruct k as [n hash]. split.
  - intros [h Hh]. apply (inv_header _ _ _ Hinv) in Hh as (Hin & <- & <-).
    exists h. split; [exact Hin|reflexivity].
  - intros (h & Hin & [= -> ->]). exists h.
    apply (inv_header _ _ _ Hinv). tauto.
Qed.

Lemma readAllHeaders_lookup :
  readAllHeaders c =
  (fun k => headerTable (headerContainer c) !! k)
    <$> NewIterator_h (headerContainer c).
Proof.
  unfold readAllHeaders. rewrite readAllHeaders_loop_lookup; [reflexivity|].
  intros k Hk. apply iterator_key in Hk as (h & Hin & ->).
  apply (inv_number _ _ _ Hinv). exists h. cbn. tauto.
Qed.

(** The snapshot holds each stored header exactly once. *)
Lemma readAllHeaders_staged : readAllHeaders c ≡ₚ Some <$> staged c.
Proof. rewrite readAllHeaders_lookup. apply lookup_NewIterator_h. Qed.

Lemma staged_written (h : Header) : h ∈ staged c <-> h ∈ hs.
Proof.
  unfold staged. rewrite list_elem_of_fmap. split.
  - intros ([[n hash] h'] & -> & Hin). apply elem_of_map_to_list in Hin.
    apply (inv_header _ _ _ Hinv) in Hin. tauto.
  - intros Hin. exists (headerKey Hash h, h). split; [reflexivity|].
    apply elem_of_map_to_list, (inv_header _ _ _ Hinv). tauto.
Qed.

(** The snapshot follows the iterator: its headers are those whose keys
    the iterator yields, in the iterator's order. *)
Lemma readAllHeaders_keys :
  exists l : list Header,
    readAllHeaders c = Some <$> l /\
    NewIterator_h (headerContainer c) = headerKey Hash <$> l.
Proof.
  rewrite readAllHeaders_lookup.
  assert (Hit : forall k, k ∈ NewIterator_h (headerContainer c) ->
            exists h, headerTable (headerContainer c) !! k = Some h /\
                      k = headerKey Hash h).
  { intros k Hk. apply iterator_key in Hk as (h & Hin & ->). exists h.
    split; [|reflexivity]. apply (inv_header _ _ _ Hinv). tauto. }
  induction (NewIterator_h (headerContainer c)) as [|k it IH].
  - exists []. split; reflexivity.
  - destruct IH as (l & Hl1 & Hl2).
    { intros k' Hk'. apply Hit, elem_of_cons. right. exact Hk'. }
    destruct (Hit k) as (h & Hh & ->); [apply elem_of_cons; left; reflexivity|].
    exists (h :: l). rewrite !fmap_cons, Hh, Hl1, <- Hl2. split; reflexivity.
Qed.

(** *** Reading one number *)

Lemma readHeader_Some (n : Z) (h : Header) :
  readHeader c n = Some h -> h ∈ hs /\ NumberU64 h = n.
Proof.
  unfold readHeader, ReadAllHashes, ReadHeader.
  destruct (filter (fun k : Z * Z => k.1 = n)
              (NewIterator_h (headerContainer c))) as [|[n' hash] ks];
    [discriminate|].
  cbn. intros Hh. apply (inv_header _ _ _ Hinv) in Hh. tauto.
Qed.

Lemma readHeader_is_Some (n : Z) :
  is_Some (readHeader c n) <-> n ∈ NumberU64 <$> hs.
Proof.
  split.
  - intros [h Hh]. apply readHeader_Some in Hh as (Hin & <-).
    apply list_elem_of_fmap_2, Hin.
  - intros Hn. apply list_elem_of_fmap in Hn as (h & -> & Hin).
    unfold readHeader, ReadAllHashes, ReadHeader.
    destruct (filter (fun k : Z * Z => k.1 = NumberU64 h)
                (NewIterator_h (headerContainer c))) as [|[n' hash] ks] eqn:Hf.
    + exfalso. eapply (filter_nil_not_elem_of _ _ (headerKey Hash h) Hf).
      * reflexivity.
      * apply iterator_key. eauto.
    + assert (Hk : (n', hash) ∈ filter (fun k : Z * Z => k.1 = NumberU64 h)
                     (NewIterator_h (headerContainer c))).
      { rewrite Hf. apply elem_of_cons. left. reflexivity. }
      apply list_elem_of_filter in Hk as [Hn' Hk]. cbn in Hn'. subst n'.
      cbn. apply elem_of_NewIterator_h, Hk.
Qed.

(** The range read has one header for each number of the range that is
    the number of a written header, in ascending order, and nothing else. *)
Lemma numbers_range_headers (k n : Z) :
  numbers (range_headers c k n) =
  filter (fun i => i ∈ NumberU64 <$> hs) (seqZ k (n - k + 1)).
Proof.
  unfold range_headers.
  induction (seqZ k (n - k + 1)) as [|i l IH]; [reflexivity|].
  rewrite fmap_cons, !filter_cons.
  pose proof (readHeader_is_Some i) as His.
  destruct (readHeader c i) as [h|] eqn:Hh; repeat case_decide.
  - rewrite numbers_cons_Some, IH. f_equal.
    apply readHeader_Some in Hh. tauto.
  - exfalso. apply H0, His. eauto.
  - exfalso. apply H. eauto.
  - exfalso. apply H. eauto.
  - exfalso. destruct H as [h Hh']. discriminate.
  - exfalso. destruct H as [h Hh']. discriminate.
  - exfalso. apply His in H0 as [h Hh']. discriminate.
  - exact IH.
Qed.

Lemma range_headers_written (k n : Z) (o : option Header) :
  o ∈ range_headers c k n -> exists h, o = Some h /\ h ∈ hs.
Proof.
  unfold range_headers. intros Ho.
  apply list_elem_of_filter in Ho as [[h ->] Ho].
  apply list_elem_of_fmap in Ho as (i & Hi & _). symmetry in Hi.
  apply readHeader_Some in Hi. exists h. tauto.
Qed.

(** *** What [ReadHeaderSince] returns *)

Lemma head_resolves (from k : Z) :
  ReadHeaderNumber (headerContainer c) from = Some k ->
  exists n,
    ReadHeaderNumber (headerContainer c)
      (ReadHeadHeaderHash (headerContainer c)) = Some n /\
    uint64.in_range n /\ uint64.in_range k.
Proof.
  intros Hfrom. apply (inv_number _ _ _ Hinv) in Hfrom as (h & Hin & _ & <-).
  unfold ReadHeadHeaderHash. rewrite (inv_head _ _ _ Hinv), fmap_last.
  destruct (last hs) as [hl|] eqn:Hl.
  - exists (NumberU64 hl). split; [|split; apply NumberU64_range].
    apply (inv_number _ _ _ Hinv). exists hl.
    split; [apply last_Some_elem_of, Hl|]. split; reflexivity.
  - apply last_None in Hl. rewrite Hl in Hin. apply elem_of_nil in Hin.
    destruct Hin.
Qed.

Lemma ReadHeaderSince_cases (fuel : nat) (from : Z) (l : list (option Header)) :
  ReadHeaderSince fuel c from = Some l ->
  (ReadHeaderNumber (headerContainer c) from = None /\
   l = readAllHeaders c) \/
  (exists k n,
     ReadHeaderNumber (headerContainer c) from = Some k /\
     ReadHeaderNumber (headerContainer c)
       (ReadHeadHeaderHash (headerContainer c)) = Some n /\
     n < uint64.max /\ l = range_headers c k n).
Proof.
  destruct (ReadHeaderNumber (headerContainer c) from) as [k|] eqn:Hfrom.
  - destruct (head_resolves from k Hfrom) as (n & Hn & Hrn & Hrk).
    rewrite (ReadHeaderSince_resolved c from k n fuel Hfrom Hn).
    intros Hl. right. exists k, n.
    destruct (decide (n = uint64.max)) as [->|Hne].
    + rewrite ReadHeaderSince_loop_max in Hl by exact Hrk. discriminate.
    + assert (Hlt : n < uint64.max)
        by (unfold uint64.in_range, uint64.max in *; lia).
      rewrite ReadHeaderSince_loop_spec in Hl
        by (unfold uint64.in_range in *; lia || exact Hlt).
      case_decide; [|discriminate]. injection Hl as <-. tauto.
  - rewrite ReadHeaderSince_unresolved by exact Hfrom.
    intros [= <-]. left. tauto.
Qed.

Lemma ReadHeaderSince_total (from : Z) :
  ReadHeaderNumber (headerContainer c) from = None \/
  ReadHeaderNumber (headerContainer c)
    (ReadHeadHeaderHash (headerContainer c)) <> Some uint64.max ->
  exists fuel l, ReadHeaderSince fuel c from = Some l.
Proof.
  intros Hcase.
  destruct (ReadHeaderNumber (headerContainer c) from) as [k|] eqn:Hfrom.
  - destruct Hcase as [Hcase|Hcase]; [discriminate|].
    destruct (head_resolves from k Hfrom) as (n & Hn & Hrn & Hrk).
    assert (Hlt : n < uint64.max).
    { assert (n <> uint64.max) by congruence.
      unfold uint64.in_range, uint64.max in *. lia. }
    exists (S (Z.to_nat (n + 1 - k))), (range_headers c k n).
    rewrite (ReadHeaderSince_resolved c from k n _ Hfrom Hn).
    rewrite ReadHeaderSince_loop_spec
      by (unfold uint64.in_range in *; lia || exact Hlt).
    case_decide; [reflexivity|lia].
  - exists 0%nat, (readAllHeaders c).
    apply ReadHeaderSince_unresolved, Hfrom.
Qed.

Lemma readAllHeaders_non_decreasing : non_decreasing (readAllHeaders c).
Proof.
  destruct readAllHeaders_keys as (l & -> & Hit).
  unfold non_decreasing. rewrite numbers_fmap_Some.
  replace (NumberU64 <$> l) with ((headerKey Hash <$> l).*1)
    by (rewrite <- list_fmap_compose; reflexivity).
  rewrite <- Hit. apply StronglySorted_Sorted.
  eapply StronglySorted_fmap; [|apply NewIterator_h_sorted].
  intros [a b] [a' b']. unfold key_le. cbn. lia.
Qed.

Lemma readAllHeaders_NoDup : NoDup (readAllHeaders c).
Proof.
  destruct readAllHeaders_keys as (l & -> & Hit).
  apply NoDup_fmap_2; [apply _|].
  apply (NoDup_fmap_1 (headerKey Hash)). rewrite <- Hit.
  apply NoDup_NewIterator_h.
Qed.

Lemma range_headers_increasing (k n : Z) :
  StronglySorted Z.lt (numbers (range_headers c k n)).
Proof.
  rewrite numbers_range_headers.
  apply StronglySorted_filter, StronglySorted_seqZ.
Qed.

Lemma range_headers_NoDup (k n : Z) : NoDup (range_headers c k n).
Proof.
  assert (Hall : Forall is_Some (range_headers c k n)).
  { apply Forall_forall. intros o Ho.
    apply range_headers_written in Ho as (h & -> & _). eauto. }
  pose proof (StronglySorted_lt_NoDup _ (range_headers_increasing k n)) as Hnd.
  unfold numbers in Hnd. apply NoDup_fmap_1 in Hnd.
  induction Hall as [|o l [h ->] Hall IH]; [constructor|].
  cbn in Hnd. apply NoDup_cons in Hnd as [Hh Hnd].
  constructor; [|apply IH, Hnd].
  intros Hin. apply Hh. clear -Hin.
  induction l as [|o l IH]; [apply elem_of_nil in Hin; destruct Hin|].
  apply elem_of_cons in Hin as [<-|Hin].
  - cbn. apply elem_of_cons. left. reflexivity.
  - destruct o as [h'|]; cbn; [apply elem_of_cons; right|]; apply IH, Hin.
Qed.

Lemma ReadHeaderSince_NoDup (fuel : nat) (from : Z) (l : list (option Header)) :
  ReadHeaderSince fuel c from = Some l -> NoDup l.
Proof.
  intros Hl. apply ReadHeaderSince_cases in Hl
    as [[_ ->]|(k & n & _ & _ & _ & ->)].
  - apply readAllHeaders_NoDup.
  - apply range_headers_NoDup.
Qed.

End WithHash.

(** *** Writing *)

Section Writing.

Variable Hash : Header -> Z.

Lemma WriteHeaderBatch_snoc (c : PandoraPendingHeaderContainer)
  (hs : list Header) (h : Header) :
  WriteHeaderBatch Hash c (hs ++ [h]) =
  WriteHeader Hash (WriteHeaderBatch Hash c hs) h.
Proof. unfold WriteHeaderBatch. rewrite fold_left_app. reflexivity. Qed.

(** A batch given to a container with an empty store leaves the store that
    the same headers written one by one leave. *)
Lemma written_batch (c : PandoraPendingHeaderContainer) (hs : list Header) :
  headerContainer c = NewMemoryDatabase ->
  written Hash hs (headerContainer (WriteHeaderBatch Hash c hs)).
Proof.
  intros Hc. induction hs as [|h hs IH] using rev_ind.
  - cbn. rewrite Hc. constructor.
  - rewrite WriteHeaderBatch_snoc. cbn. constructor. exact IH.
Qed.

Lemma WriteHeader_header_self (c : PandoraPendingHeaderContainer) (h : Header) :
  ReadHeader (headerContainer (WriteHeader Hash c h)) (Hash h) (NumberU64 h) =
  Some h.
Proof. cbn. unfold ReadHeader. cbn. apply lookup_insert_eq. Qed.

Lemma WriteHeader_head_self (c : PandoraPendingHeaderContainer) (h : Header) :
  ReadHeadHeaderHash (headerContainer (WriteHeader Hash c h)) = Hash h.
Proof. reflexivity. Qed.

Lemma WriteHeader_number_self (c : PandoraPendingHeaderContainer) (h : Header) :
  ReadHeaderNumber (headerContainer (WriteHeader Hash c h)) (Hash h) =
  Some (NumberU64 h).
Proof. cbn. unfold ReadHeaderNumber. cbn. apply lookup_insert_eq. Qed.

Lemma WriteHeader_number_mono (c : PandoraPendingHeaderContainer)
  (h : Header) (x : Z) :
  is_Some (ReadHeaderNumber (headerContainer c) x) ->
  is_Some (ReadHeaderNumber (headerContainer (WriteHeader Hash c h)) x).
Proof.
  unfold ReadHeaderNumber. cbn. intros Hx.
  destruct (decide (Hash h = x)) as [<-|Hne].
  - rewrite lookup_insert_eq. eauto.
  - rewrite lookup_insert_ne by exact Hne. exact Hx.
Qed.

Lemma WriteHeaderBatch_number_mono (hs : list Header)
  (c : PandoraPendingHeaderContainer) (x : Z) :
  is_Some (ReadHeaderNumber (headerContainer c) x) ->
  is_Some (ReadHeaderNumber (headerContainer (WriteHeaderBatch Hash c hs)) x).
Proof.
  revert c. induction hs as [|h hs IH]; intros c Hx; [exact Hx|].
  cbn. apply IH, WriteHeader_number_mono, Hx.
Qed.

Lemma WriteHeaderBatch_numbers (hs : list Header)
  (c : PandoraPendingHeaderContainer) (h : Header) :
  h ∈ hs ->
  is_Some (ReadHeaderNumber (headerContainer (WriteHeaderBatch Hash c hs))
             (Hash h)).
Proof.
  revert c. induction hs as [|h0 hs IH]; intros c Hin.
  - apply elem_of_nil in Hin. destruct Hin.
  - cbn. apply elem_of_cons in Hin as [->|Hin].
    + apply WriteHeaderBatch_number_mono. rewrite WriteHeader_number_self.
      eauto.
    + apply IH, Hin.
Qed.

Lemma WriteHeader_indexed (c : PandoraPendingHeaderContainer) (h : Header) :
  indexed (headerContainer c) ->
  indexed (headerContainer (WriteHeader Hash c h)).
Proof.
  intros Hc n hash h'. cbn. unfold headerKey. intros Hh'.
  destruct (decide (Hash h = hash)) as [<-|Hne].
  - pose proof (WriteHeader_number_self c h) as Hs. cbn in Hs.
    rewrite Hs. eauto.
  - rewrite lookup_insert_ne in Hh' by congruence.
    apply (WriteHeader_number_mono c h hash), (Hc n hash h'), Hh'.
Qed.

Lemma WriteHeaderBatch_indexed (hs : list Header)
  (c : PandoraPendingHeaderContainer) :
  indexed (headerContainer c) ->
  indexed (headerContainer (WriteHeaderBatch Hash c hs)).
Proof.
  revert c. induction hs as [|h hs IH]; intros c Hc; [exact Hc|].
  cbn. apply IH, WriteHeader_indexed, Hc.
Qed.

Lemma WriteHeader_twice (c : PandoraPendingHeaderContainer) (h : Header) :
  WriteHeader Hash (WriteHeader Hash c h) h = WriteHeader Hash c h.
Proof.
  unfold WriteHeader, rawdb.WriteHeader, WriteHeadHeaderHash. cbn.
  rewrite !insert_insert_eq. reflexivity.
Qed.

End Writing.

End Container.

(** * Properties of the reference orchestrator service *)

Section OrcClient.

Import pandora_orcclient.

Lemma hexValue_hexDigit (v : Z) :
  0 <= v < 16 -> hexValue (hexDigit v) = Some v.
Proof.
  intros Hv.
  assert (Hcases : exists n : nat, (n < 16)%nat /\ v = Z.of_nat n).
  { exists (Z.to_nat v). split; lia. }
  destruct Hcases as (n & Hn & ->).
  do 16 (destruct n as [|n]; [reflexivity|]).
  lia.
Qed.

Lemma hexDecode_hexEncode (d : nat) (x acc : Z) :
  hexDecode (hexEncode d x) acc = acc * 16 ^ Z.of_nat d + x mod 16 ^ Z.of_nat d.
Proof.
  revert acc. induction d as [|d IH]; intros acc.
  - cbn [hexEncode hexDecode]. change (16 ^ Z.of_nat 0) with 1.
    rewrite Z.mod_1_r. lia.
  - cbn [hexEncode hexDecode].
    rewrite hexValue_hexDigit by (apply Z.mod_pos_bound; lia).
    rewrite IH, Nat2Z.inj_succ, Z.pow_succ_r by lia.
    assert (Hpos : 0 < 16 ^ Z.of_nat d) by (apply Z.pow_pos_nonneg; lia).
    rewrite (Z.mul_comm 16 (16 ^ Z.of_nat d)).
    rewrite (Z.rem_mul_r x (16 ^ Z.of_nat d) 16) by lia.
    ring.
Qed.

(** Hex printing loses nothing of a 32-byte hash. *)
Lemma HexToHash_String (h : Z) :
  0 <= h < hash_modulus -> HexToHash (Hash_String h) = h.
Proof.
  intros Hh. unfold Hash_String, HexToHash.
  rewrite hexDecode_hexEncode.
  change (16 ^ Z.of_nat 64) with hash_modulus.
  rewrite Z.mul_0_l, Z.add_0_l, Z.mod_mod by (unfold hash_modulus; lia).
  apply Z.mod_small, Hh.
Qed.

Lemma String_eqb_known (known : string) (h : Z) :
  0 <= h < hash_modulus ->
  Hash_String (HexToHash known) = known ->
  String.eqb known (Hash_String h) = bool_decide (h = HexToHash known).
Proof.
  intros Hh Hknown. case_bool_decide as Heq.
  - subst h. rewrite Hknown. apply String.eqb_refl.
  - apply String.eqb_neq. intros Hs. apply Heq.
    rewrite Hs. symmetry. apply HexToHash_String, Hh.
Qed.

Lemma known_distinct : knownInvalid <> knownPending.
Proof. vm_compute. discriminate. Qed.

Lemma status_of_reference_policy (item : BlockHash) :
  0 <= Hash item < hash_modulus ->
  status_of item = reference_policy (Hash item).
Proof.
  intros Hh. unfold status_of, reference_policy.
  rewrite !String_eqb_known by (assumption || reflexivity).
  fold knownInvalid knownPending.
  pose proof known_distinct.
  repeat case_bool_decide; repeat case_decide; congruence.
Qed.

Lemma fold_left_snoc_map {A B : Type} (f : A -> B) (l : list A) (acc : list B) :
  fold_left (fun response x => response ++ [f x]) l acc = acc ++ map f l.
Proof.
  revert acc. induction l as [|x l IH]; intros acc; cbn [fold_left map].
  - symmetry. apply app_nil_r.
  - rewrite IH, <- app_assoc. reflexivity.
Qed.

(** The service answers a non-empty request item by item. *)
Lemma ConfirmPanBlockHashes_map (request : list BlockHash) :
  request <> [] ->
  ConfirmPanBlockHashes request =
  Ok (map (fun item => mkBlockStatus item (status_of item)) request).
Proof.
  intros Hne. unfold ConfirmPanBlockHashes.
  destruct request as [|item request]; [congruence|].
  replace (Z.of_nat (length (item :: request)) <? 1) with false
    by (symmetry; apply Z.ltb_ge; cbn [length]; lia).
  rewrite (fold_left_snoc_map
             (fun r => mkBlockStatus (mkBlockHash (Slot r) (Hash r)) (status_of r))).
  cbn [app]. f_equal. apply map_ext. intros [slot hash]. reflexivity.
Qed.

End OrcClient.

(** * The container's contract *)

Section Contract.

Import rawdb core.

Lemma toyHash_collision_free (hs : list Header) : collision_free toyHash hs.
Proof.
  intros [p1 n1 t1] [p2 n2 t2] _ _ Heq. unfold toyHash in Heq. cbn in Heq.
  injection Heq as Heq. apply (inj encode) in Heq. congruence.
Qed.

Lemma toyHash_never_zero : never_zero toyHash.
Proof. intros h. unfold toyHash, common.zeroHash. discriminate. Qed.

Lemma stagedAB_written : written toyHash [hA; hB] (headerContainer stagedAB).
Proof. apply written_batch. reflexivity. Qed.

(** C1, as amended: [WriteHeader] persists the header, which is then read
    back under its hash and number, has its number in the index and is the
    head, and it leaves the notification feed as it was: it sends nothing to
    any subscriber, so no subscriber can block or fail the write. *)
Theorem WriteHeader_persists_and_keeps_feed (Hash : Header -> Z)
  (c : PandoraPendingHeaderContainer) (h : Header) :
  let c' := WriteHeader Hash c h in
  ReadHeader (headerContainer c') (Hash h) (NumberU64 h) = Some h /\
  ReadHeaderNumber (headerContainer c') (Hash h) = Some (NumberU64 h) /\
  ReadHeadHeaderHash (headerContainer c') = Hash h /\
  pndHeaderFeed c' = pndHeaderFeed c.
Proof.
  cbn zeta. split; [apply WriteHeader_header_self|].
  split; [apply WriteHeader_number_self|].
  split; [apply WriteHeader_head_self|reflexivity].
Qed.

(** C1, counterexample: a container with one subscriber is given a header;
    the subscriber's inbox stays empty, where a header-arrived event would
    have put the header in it. *)
Lemma WriteHeader_fires_counterexample :
  pndHeaderFeed (WriteHeader toyHash subscribed hA) = [[]] /\
  event.Send (pndHeaderFeed subscribed) hA = [[hA]] /\
  ~ fires_header_arrived subscribed (WriteHeader toyHash subscribed hA) hA.
Proof.
  split; [reflexivity|]. split; [reflexivity|].
  unfold fires_header_arrived. cbn. discriminate.
Qed.

(** C2: in a container that was given the headers [hs], a [from] that is
    the zero hash or the hash of none of them makes [ReadHeaderSince]
    return, whatever the fuel, a sequence that holds each stored header
    exactly once and nothing else: all the staged headers. *)
Theorem ReadHeaderSince_unresolvable_returns_all (Hash : Header -> Z)
  (hs : list Header) (c : PandoraPendingHeaderContainer) (from : Z)
  (fuel : nat) :
  collision_free Hash hs -> never_zero Hash ->
  written Hash hs (headerContainer c) ->
  from = common.zeroHash \/ from ∉ Hash <$> hs ->
  exists l,
    ReadHeaderSince fuel c from = Some l /\
    l ≡ₚ Some <$> staged c /\
    (forall h, Some h ∈ l <-> h ∈ hs).
Proof.
  intros Hcf Hnz Hw Hfrom.
  pose proof (written_invariant Hash hs _ Hw Hcf) as Hinv.
  assert (Hnone : ReadHeaderNumber (headerContainer c) from = None).
  { destruct (ReadHeaderNumber (headerContainer c) from) as [k|] eqn:Hk;
      [|reflexivity].
    apply (inv_number _ _ _ Hinv) in Hk as (h & Hin & Hh & _).
    destruct Hfrom as [->|Hfrom].
    - destruct (Hnz h Hh).
    - destruct Hfrom. rewrite <- Hh. apply list_elem_of_fmap_2, Hin. }
  exists (readAllHeaders c). split; [apply ReadHeaderSince_unresolved, Hnone|].
  pose proof (readAllHeaders_staged Hash hs c Hinv) as Hp.
  split; [exact Hp|]. intros h. rewrite Hp.
  rewrite (list_elem_of_fmap_inj Some). apply (staged_written Hash hs c Hinv).
Qed.

Lemma ReadHeaderSince_unresolvable_returns_all_witness :
  exists l,
    ReadHeaderSince 0 stagedAB common.zeroHash = Some l /\
    l ≡ₚ Some <$> staged stagedAB /\
    (forall h, Some h ∈ l <-> h ∈ [hA; hB]).
Proof.
  apply (ReadHeaderSince_unresolvable_returns_all toyHash [hA; hB] stagedAB
           common.zeroHash 0 (toyHash_collision_free _) toyHash_never_zero
           stagedAB_written).
  left. reflexivity.
Defined.

(** Below the largest [uint64]: when [from] is stored at number [k] and the
    head at number [n], enough fuel makes [ReadHeaderSince] return the range
    read: one written header for every number of [k..n] that is the number
    of a written header, ascending, the other numbers skipped. *)
Theorem ReadHeaderSince_range_below_max (Hash : Header -> Z)
  (hs : list Header) (c : PandoraPendingHeaderContainer) (from k n : Z) :
  collision_free Hash hs ->
  written Hash hs (headerContainer c) ->
  ReadHeaderNumber (headerContainer c) from = Some k ->
  ReadHeaderNumber (headerContainer c)
    (ReadHeadHeaderHash (headerContainer c)) = Some n ->
  n < uint64.max ->
  exists l,
    (forall fuel, (Z.to_nat (n + 1 - k) < fuel)%nat ->
                  ReadHeaderSince fuel c from = Some l) /\
    numbers l = filter (fun i => i ∈ NumberU64 <$> hs) (seqZ k (n - k + 1)) /\
    (forall o, o ∈ l -> exists h, o = Some h /\ h ∈ hs).
Proof.
  intros Hcf Hw Hfrom Hlast Hn.
  pose proof (written_invariant Hash hs _ Hw Hcf) as Hinv.
  destruct (head_resolves Hash hs c Hinv from k Hfrom) as (_ & _ & _ & Hk).
  exists (range_headers c k n). split; [|split].
  - intros fuel Hfuel.
    rewrite (ReadHeaderSince_resolved c from k n fuel Hfrom Hlast).
    rewrite ReadHeaderSince_loop_spec
      by (unfold uint64.in_range in *; lia || exact Hn).
    case_decide; [reflexivity|lia].
  - apply (numbers_range_headers Hash hs c Hinv).
  - apply (range_headers_written Hash hs c Hinv).
Qed.

Lemma ReadHeaderSince_range_below_max_witness :
  exists l,
    (forall fuel, (Z.to_nat (4 + 1 - 1) < fuel)%nat ->
                  ReadHeaderSince fuel stagedSparse (toyHash (hdr 1 0)) = Some l) /\
    numbers l = filter (fun i => i ∈ NumberU64 <$> sparse) (seqZ 1 (4 - 1 + 1)) /\
    (forall o, o ∈ l -> exists h, o = Some h /\ h ∈ sparse).
Proof.
  apply (ReadHeaderSince_range_below_max toyHash sparse stagedSparse
           (toyHash (hdr 1 0)) 1 4 (toyHash_collision_free _)).
  - apply written_batch. reflexivity.
  - vm_compute. reflexivity.
  - vm_compute. reflexivity.
  - vm_compute. reflexivity.
Defined.

(** The range read from the header numbered 1 skips the number 2. *)
Example ReadHeaderSince_sparse_run :
  ReadHeaderSince 5 stagedSparse (toyHash (hdr 1 0)) =
  Some [Some (hdr 1 0); Some (hdr 3 0); Some (hdr 4 0)].
Proof. vm_compute. reflexivity. Qed.

(** The loop needs one unit of fuel per number of the range and one more
    to leave. *)
Example ReadHeaderSince_sparse_short_of_fuel :
  ReadHeaderSince 4 stagedSparse (toyHash (hdr 1 0)) = None.
Proof. vm_compute. reflexivity. Qed.

(** A hash that was never written gets the full snapshot. *)
Example ReadHeaderSince_sparse_unknown :
  ReadHeaderSince 0 stagedSparse 7 =
  Some [Some (hdr 1 0); Some (hdr 3 0); Some (hdr 4 0)].
Proof. vm_compute. reflexivity. Qed.

(** Of two headers of one number the range read returns the first the
    iterator discovers. *)
Example ReadHeaderSince_tie_run :
  toyHash hA < toyHash hB /\
  ReadHeaderSince 2 stagedAB (toyHash hB) = Some [Some hA].
Proof. vm_compute. split; reflexivity. Qed.

(** C3, at the failing input: the container holds the one header [hMax],
    whose number is the largest [uint64], and [from] is its hash.  The
    range is the single number [2^64 - 1]; the loop's condition
    [i <= 2^64 - 1] holds of every [uint64] and [i++] wraps to 0, so no
    amount of fuel makes [ReadHeaderSince] return. *)
Theorem ReadHeaderSince_never_returns_at_max (Hash : Header -> Z)
  (fuel : nat) :
  ReadHeaderSince fuel (WriteHeader Hash NewPandoraPendingHeaderContainer hMax)
    (Hash hMax) = None.
Proof.
  rewrite (ReadHeaderSince_resolved _ _ uint64.max uint64.max).
  - apply ReadHeaderSince_loop_max. unfold uint64.in_range. rewrite modulus_eq.
    vm_compute. split; [discriminate|reflexivity].
  - apply WriteHeader_number_self.
  - apply WriteHeader_number_self.
Qed.

(** C4: a container whose store is empty, whatever its feed, answers
    [ReadHeaderSince] with the empty sequence for every [from] and every
    fuel, through the full-snapshot path. *)
Theorem ReadHeaderSince_empty (feed : event.Feed) (from : Z) (fuel : nat) :
  ReadHeaderSince fuel
    {| headerContainer := NewMemoryDatabase; pndHeaderFeed := feed |} from
  = Some [].
Proof.
  rewrite ReadHeaderSince_unresolved by apply lookup_empty.
  unfold readAllHeaders. cbn [headerContainer].
  rewrite NewIterator_h_empty. reflexivity.
Qed.

(** C5, as amended: in a container that was given the headers [hs],
    whatever [ReadHeaderSince] returns is non-decreasing in header number.
    On the range branch ([from] resolves) it has at most one header per
    number, the first discovered: the one [readHeader] finds for that
    number.  On the full-snapshot branch it has every stored header once,
    so headers that share a number all appear.  It does return when [from]
    does not resolve or the head's number is not the largest [uint64]. *)
Theorem ReadHeaderSince_ordering (Hash : Header -> Z) (hs : list Header)
  (c : PandoraPendingHeaderContainer) (from : Z) :
  collision_free Hash hs ->
  written Hash hs (headerContainer c) ->
  (forall fuel l,
     ReadHeaderSince fuel c from = Some l ->
     non_decreasing l /\
     (is_Some (ReadHeaderNumber (headerContainer c) from) ->
      one_per_number l /\
      forall h, Some h ∈ l -> readHeader c (NumberU64 h) = Some h) /\
     (ReadHeaderNumber (headerContainer c) from = None ->
      l ≡ₚ Some <$> staged c)) /\
  (ReadHeaderNumber (headerContainer c) from = None \/
   ReadHeaderNumber (headerContainer c)
     (ReadHeadHeaderHash (headerContainer c)) <> Some uint64.max ->
   exists fuel l, ReadHeaderSince fuel c from = Some l).
Proof.
  intros Hcf Hw.
  pose proof (written_invariant Hash hs _ Hw Hcf) as Hinv.
  split; [|apply (ReadHeaderSince_total Hash hs c Hinv)].
  intros fuel l Hl.
  apply (ReadHeaderSince_cases Hash hs c Hinv) in Hl
    as [[Hnone ->]|(k & n & Hk & _ & _ & ->)].
  - split; [apply (readAllHeaders_non_decreasing Hash hs c Hinv)|].
    split.
    + rewrite Hnone. intros [k Hk]. discriminate.
    + intros _. apply (readAllHeaders_staged Hash hs c Hinv).
  - pose proof (range_headers_increasing Hash hs c Hinv k n) as Hinc.
    split; [apply StronglySorted_lt_le, Hinc|]. split.
    + intros _. split; [apply StronglySorted_lt_NoDup, Hinc|].
      intros h Hh. unfold range_headers in Hh.
      apply list_elem_of_filter in Hh as [_ Hh].
      apply list_elem_of_fmap in Hh as (i & Hi & _). symmetry in Hi.
      pose proof (readHeader_Some Hash hs c Hinv i h Hi) as [_ Hnum].
      rewrite Hnum. exact Hi.
    + rewrite Hk. discriminate.
Qed.

Lemma ReadHeaderSince_ordering_witness :
  (forall fuel l,
     ReadHeaderSince fuel stagedAB (toyHash hA) = Some l ->
     non_decreasing l /\
     (is_Some (ReadHeaderNumber (headerContainer stagedAB) (toyHash hA)) ->
      one_per_number l /\
      forall h, Some h ∈ l -> readHeader stagedAB (NumberU64 h) = Some h) /\
     (ReadHeaderNumber (headerContainer stagedAB) (toyHash hA) = None ->
      l ≡ₚ Some <$> staged stagedAB)) /\
  (ReadHeaderNumber (headerContainer stagedAB) (toyHash hA) = None \/
   ReadHeaderNumber (headerContainer stagedAB)
     (ReadHeadHeaderHash (headerContainer stagedAB)) <> Some uint64.max ->
   exists fuel l, ReadHeaderSince fuel stagedAB (toyHash hA) = Some l).
Proof.
  apply (ReadHeaderSince_ordering toyHash [hA; hB] stagedAB (toyHash hA)
           (toyHash_collision_free _) stagedAB_written).
Defined.

(** C5, counterexample: [hA] and [hB] share the number 2; once both are
    written, the full snapshot asked with the zero hash returns both, two
    headers of one number. *)
Lemma ReadHeaderSince_one_per_number_counterexample :
  reachable toyHash stagedAB /\
  ReadHeaderSince 0 stagedAB common.zeroHash = Some [Some hA; Some hB] /\
  ~ one_per_number [Some hA; Some hB].
Proof.
  split; [exists [hA; hB]; apply stagedAB_written|].
  split; [vm_compute; reflexivity|].
  unfold one_per_number. intros Hnd.
  apply NoDup_cons in Hnd as [Hnot _]. apply Hnot.
  apply elem_of_cons. left. reflexivity.
Qed.

(** C9: after [WriteHeaderBatch] of a sequence that ends in [hn], given to
    any container, the head is [hn]'s hash, the number of every header of
    the batch resolves, the head's header is read back from the store, and
    if every stored header's hash had a number before, so it has after. *)
Theorem WriteHeaderBatch_head_and_numbers (Hash : Header -> Z)
  (c : PandoraPendingHeaderContainer) (hs : list Header) (hn : Header) :
  last hs = Some hn ->
  let c' := WriteHeaderBatch Hash c hs in
  ReadHeadHeaderHash (headerContainer c') = Hash hn /\
  (forall h, h ∈ hs ->
             is_Some (ReadHeaderNumber (headerContainer c') (Hash h))) /\
  (exists n,
     ReadHeaderNumber (headerContainer c')
       (ReadHeadHeaderHash (headerContainer c')) = Some n /\
     ReadHeader (headerContainer c')
       (ReadHeadHeaderHash (headerContainer c')) n = Some hn) /\
  (indexed (headerContainer c) -> indexed (headerContainer c')).
Proof.
  intros Hlast c'. subst c'.
  split; [|split; [|split]].
  - apply last_Some in Hlast as [hs' ->]. rewrite WriteHeaderBatch_snoc.
    reflexivity.
  - intros h Hin. apply WriteHeaderBatch_numbers, Hin.
  - apply last_Some in Hlast as [hs' ->]. rewrite WriteHeaderBatch_snoc.
    exists (NumberU64 hn). rewrite WriteHeader_head_self.
    split; [apply WriteHeader_number_self|apply WriteHeader_header_self].
  - apply WriteHeaderBatch_indexed.
Qed.

Lemma WriteHeaderBatch_head_and_numbers_witness :
  ReadHeadHeaderHash (headerContainer stagedAB) = toyHash hB /\
  (forall h, h ∈ [hA; hB] ->
             is_Some (ReadHeaderNumber (headerContainer stagedAB) (toyHash h))) /\
  (exists n,
     ReadHeaderNumber (headerContainer stagedAB)
       (ReadHeadHeaderHash (headerContainer stagedAB)) = Some n /\
     ReadHeader (headerContainer stagedAB)
       (ReadHeadHeaderHash (headerContainer stagedAB)) n = Some hB) /\
  (indexed (headerContainer NewPandoraPendingHeaderContainer) ->
   indexed (headerContainer stagedAB)).
Proof.
  exact (WriteHeaderBatch_head_and_numbers toyHash
           NewPandoraPendingHeaderContainer [hA; hB] hB eq_refl).
Defined.

(** The store of a new container is indexed, and so is every store that
    writes reach from it. *)
Lemma reachable_indexed (Hash : Header -> Z)
  (c : PandoraPendingHeaderContainer) :
  reachable Hash c -> indexed (headerContainer c).
Proof.
  intros [hs Hw]. induction Hw as [|hs db h Hw IH].
  - intros n hash h Hh. cbn in Hh. rewrite lookup_empty in Hh. discriminate.
  - apply (WriteHeader_indexed Hash
             {| headerContainer := db; pndHeaderFeed := event.zero |} h IH).
Qed.

(** C10: writing a header a second time changes nothing: the container is
    the same, so every later [ReadHeaderSince], head lookup and number
    lookup answers the same; and when the container was reached by writes
    of headers that do not collide with each other or with this one, the
    header occupies one position at most of any returned sequence. *)
Theorem WriteHeader_idempotent (Hash : Header -> Z)
  (c : PandoraPendingHeaderContainer) (h : Header) :
  let c1 := WriteHeader Hash c h in
  let c2 := WriteHeader Hash c1 h in
  c2 = c1 /\
  (forall fuel from, ReadHeaderSince fuel c2 from = ReadHeaderSince fuel c1 from) /\
  ReadHeadHeaderHash (headerContainer c2) =
    ReadHeadHeaderHash (headerContainer c1) /\
  (forall x, ReadHeaderNumber (headerContainer c2) x =
             ReadHeaderNumber (headerContainer c1) x) /\
  (forall hs,
     written Hash hs (headerContainer c) ->
     collision_free Hash (hs ++ [h]) ->
     forall fuel from l (i j : nat),
       ReadHeaderSince fuel c2 from = Some l ->
       l !! i = Some (Some h) -> l !! j = Some (Some h) -> i = j).
Proof.
  intros c1 c2.
  assert (Heq : c2 = c1) by apply WriteHeader_twice.
  split; [exact Heq|]. rewrite Heq.
  split; [reflexivity|]. split; [reflexivity|]. split; [reflexivity|].
  intros hs Hw Hcf fuel from l i j Hl Hi Hj.
  assert (Hinv : store_invariant Hash (hs ++ [h]) (headerContainer c1)).
  { apply written_invariant; [|exact Hcf]. cbn. constructor. exact Hw. }
  eapply NoDup_lookup; [|exact Hi|exact Hj].
  apply (ReadHeaderSince_NoDup Hash _ c1 Hinv fuel from l Hl).
Qed.

Lemma WriteHeader_idempotent_witness :
  let c1 := WriteHeader toyHash stagedAB hB in
  let c2 := WriteHeader toyHash c1 hB in
  c2 = c1 /\
  (forall fuel from, ReadHeaderSince fuel c2 from = ReadHeaderSince fuel c1 from) /\
  ReadHeadHeaderHash (headerContainer c2) =
    ReadHeadHeaderHash (headerContainer c1) /\
  (forall x, ReadHeaderNumber (headerContainer c2) x =
             ReadHeaderNumber (headerContainer c1) x) /\
  (forall fuel from l (i j : nat),
     ReadHeaderSince fuel c2 from = Some l ->
     l !! i = Some (Some hB) -> l !! j = Some (Some hB) -> i = j).
Proof.
  destruct (WriteHeader_idempotent toyHash stagedAB hB)
    as (H1 & H2 & H3 & H4 & H5).
  split; [exact H1|]. split; [exact H2|]. split; [exact H3|].
  split; [exact H4|].
  exact (H5 [hA; hB] stagedAB_written (toyHash_collision_free _)).
Defined.

End Contract.

(** * The confirmation exchange's contract *)

Section Exchange.

Import pandora_orcclient.

(** C6: for a non-empty request the service succeeds, and its response has
    the request's length and at each position the request item's hash and
    slot with a status that is Pending, Verified or Invalid. *)
Theorem ConfirmPanBlockHashes_positional (request : list BlockHash) :
  request <> [] ->
  exists response,
    ConfirmPanBlockHashes request = Ok response /\ answers request response.
Proof.
  intros Hne. rewrite ConfirmPanBlockHashes_map by exact Hne.
  eexists. split; [reflexivity|]. split; [apply length_map|].
  intros i item Hi. exists (mkBlockStatus item (status_of item)).
  split; [|split; [reflexivity|]].
  - change (map ?f request) with (f <$> request).
    rewrite list_lookup_fmap, Hi. reflexivity.
  - cbn. destruct (status_of item); tauto.
Qed.

Lemma ConfirmPanBlockHashes_positional_witness :
  exists response,
    ConfirmPanBlockHashes testRequest = Ok response /\
    answers testRequest response.
Proof.
  apply (ConfirmPanBlockHashes_positional testRequest). discriminate.
Defined.

(** C7: on an empty request the service fails with an error and produces
    no status, and the client fails with its input error and sends nothing:
    the wire is as it was. *)
Theorem ConfirmPanBlockHashes_empty_request :
  ConfirmPanBlockHashes [] = Err "request has empty slice" /\
  forall wire, GetConfirmedPanBlockHashes wire [] = (Err "empty request", wire).
Proof. split; [reflexivity|]. intros wire. reflexivity. Qed.

(** C8: on a non-empty request of 32-byte hashes the service answers every
    item by the reference policy: Invalid for the known-invalid hash,
    Pending for the known-pending hash, Verified for any other. *)
Theorem ConfirmPanBlockHashes_reference_policy (request : list BlockHash) :
  request <> [] ->
  Forall (fun item => 0 <= Hash item < hash_modulus) request ->
  ConfirmPanBlockHashes request =
  Ok (map (fun item => mkBlockStatus item (reference_policy (Hash item)))
        request).
Proof.
  intros Hne Hall. rewrite ConfirmPanBlockHashes_map by exact Hne.
  f_equal. induction Hall as [|item request Hitem Hall IH]; [reflexivity|].
  cbn [map]. rewrite status_of_reference_policy by exact Hitem.
  destruct request as [|item' request]; [reflexivity|].
  rewrite IH by discriminate. reflexivity.
Qed.

(** The request of the test, the known-invalid hash in slot 1 and the
    known-pending hash in slot 2, is answered Invalid, then Pending. *)
Lemma ConfirmPanBlockHashes_reference_policy_witness :
  ConfirmPanBlockHashes testRequest =
  Ok [mkBlockStatus (mkBlockHash 1 knownInvalid) Invalid;
      mkBlockStatus (mkBlockHash 2 knownPending) Pending].
Proof.
  apply (ConfirmPanBlockHashes_reference_policy testRequest).
  - discriminate.
  - repeat constructor; vm_compute; discriminate.
Defined.

End Exchange.

(** * Further properties of the container *)

Section ContainerEdges.

Import rawdb core.

Lemma ReadHeaderSince_loop_no_nil (c : PandoraPendingHeaderContainer)
  (last : Z) (fuel : nat) :
  forall (i : Z) (acc l : list (option Header)),
    Forall is_Some acc ->
    ReadHeaderSince_loop fuel c i last acc = Some l ->
    Forall is_Some l.
Proof.
  induction fuel as [|fuel IH]; intros i acc l Hacc; [discriminate|].
  cbn [ReadHeaderSince_loop]. destruct (i <=? last).
  - apply IH. destruct (readHeader c i) as [h|]; [|exact Hacc].
    apply Forall_app. split; [exact Hacc|]. repeat constructor. eauto.
  - intros [= <-]. exact Hacc.
Qed.

(** The range branch never hands out a nil header, whatever the store
    holds: the loop appends what [readHeader] found only when it is not
    nil. *)
Theorem ReadHeaderSince_range_no_nil (c : PandoraPendingHeaderContainer)
  (from : Z) (fuel : nat) (l : list (option Header)) :
  is_Some (ReadHeaderNumber (headerContainer c) from) ->
  ReadHeaderSince fuel c from = Some l ->
  Forall is_Some l.
Proof.
  intros [k Hk]. unfold ReadHeaderSince. rewrite Hk.
  destruct (ReadHeaderNumber (headerContainer c)
              (ReadHeadHeaderHash (headerContainer c))) as [n|].
  - apply ReadHeaderSince_loop_no_nil. constructor.
  - intros [= <-]. constructor.
Qed.

Lemma ReadHeaderSince_range_no_nil_witness :
  Forall is_Some [Some (hdr 1 0); Some (hdr 3 0); Some (hdr 4 0)].
Proof.
  apply (ReadHeaderSince_range_no_nil stagedSparse (toyHash (hdr 1 0)) 5).
  - vm_compute. eauto.
  - vm_compute. reflexivity.
Defined.

Section WithHash.

Variable Hash : Header -> Z.

Lemma WriteHeader_header_mono (c : PandoraPendingHeaderContainer)
  (h : Header) (hash n : Z) :
  is_Some (ReadHeader (headerContainer c) hash n) ->
  is_Some (ReadHeader (headerContainer (WriteHeader Hash c h)) hash n).
Proof.
  unfold ReadHeader. cbn. intros Hx.
  destruct (decide (headerKey Hash h = (n, hash))) as [<-|Hne].
  - rewrite lookup_insert_eq. eauto.
  - rewrite lookup_insert_ne by exact Hne. exact Hx.
Qed.

(** The store only grows: a header that can be read under a hash and a
    number, and a hash whose number resolves, can still be read and still
    resolves after any batch of writes. *)
Theorem WriteHeaderBatch_keeps (hs : list Header)
  (c : PandoraPendingHeaderContainer) (hash n : Z) :
  let c' := WriteHeaderBatch Hash c hs in
  (is_Some (ReadHeader (headerContainer c) hash n) ->
   is_Some (ReadHeader (headerContainer c') hash n)) /\
  (is_Some (ReadHeaderNumber (headerContainer c) hash) ->
   is_Some (ReadHeaderNumber (headerContainer c') hash)).
Proof.
  cbn zeta. split; [|apply WriteHeaderBatch_number_mono].
  revert c. induction hs as [|h hs IH]; intros c Hc; [exact Hc|].
  cbn. apply IH, WriteHeader_header_mono, Hc.
Qed.

(** Every key of the header table of a store that writes have reached has
    its hash in the number index, at a number under which that hash has a
    header; this needs nothing of the digest. *)
Lemma written_resolves (hs : list Header) (db : Database) :
  written Hash hs db ->
  forall n hash,
    is_Some (headerTable db !! (n, hash)) ->
    exists n', numberTable db !! hash = Some n' /\
               is_Some (headerTable db !! (n', hash)).
Proof.
  induction 1 as [|hs db h0 Hw IH]; intros n hash.
  - cbn. rewrite lookup_empty. intros [h Hh]. discriminate.
  - cbn. unfold headerKey. intros Hh.
    destruct (decide (Hash h0 = hash)) as [<-|Hne].
    + exists (NumberU64 h0). rewrite !lookup_insert_eq. eauto.
    + rewrite lookup_insert_ne in Hh by congruence.
      destruct (IH n hash Hh) as (n' & Hn' & Hh').
      exists n'. rewrite !lookup_insert_ne by congruence. eauto.
Qed.

Lemma readAllHeaders_loop_complete (c : PandoraPendingHeaderContainer)
  (it : list (Z * Z)) :
  (forall k, k ∈ it ->
     exists n', numberTable (headerContainer c) !! k.2 = Some n' /\
                is_Some (headerTable (headerContainer c) !! (n', k.2))) ->
  forall acc, exists l,
    readAllHeaders_loop c it acc = acc ++ l /\
    Forall is_Some l /\ length l = length it.
Proof.
  induction it as [|[n hash] it IH]; intros Hit acc.
  - exists []. cbn. rewrite app_nil_r. repeat split. constructor.
  - destruct (Hit (n, hash)) as (n' & Hn' & Hh');
      [apply elem_of_cons; left; reflexivity|].
    cbn [readAllHeaders_loop]. unfold common.BytesToHash_key, ReadHeaderNumber.
    cbn [snd] in *. rewrite Hn'.
    destruct (IH (fun k Hk => Hit k (proj2 (elem_of_cons _ _ _) (or_intror Hk)))
                (acc ++ [ReadHeader (headerContainer c) hash n']))
      as (l & Hl & Hall & Hlen).
    exists (ReadHeader (headerContainer c) hash n' :: l).
    rewrite Hl, <- app_assoc. split; [reflexivity|].
    split; [constructor; assumption|]. cbn. rewrite Hlen. reflexivity.
Qed.

(** In a container that writes have reached, whatever the digest, the
    full snapshot never stops early and never holds a nil header: it has
    one non-nil entry for every key of the header table. *)
Theorem readAllHeaders_complete (c : PandoraPendingHeaderContainer) :
  reachable Hash c ->
  Forall is_Some (readAllHeaders c) /\
  length (readAllHeaders c) = size (headerTable (headerContainer c)).
Proof.
  intros [hs Hw]. unfold readAllHeaders.
  destruct (readAllHeaders_loop_complete c
              (NewIterator_h (headerContainer c))) with (acc := @nil (option Header))
    as (l & -> & Hall & Hlen).
  - intros [n hash] Hk. apply elem_of_NewIterator_h in Hk.
    apply (written_resolves hs _ Hw n hash Hk).
  - split; [exact Hall|]. cbn [app]. rewrite Hlen.
    unfold NewIterator_h. rewrite merge_sort_Permutation, length_fmap.
    apply length_map_to_list.
Qed.

End WithHash.

Lemma WriteHeaderBatch_keeps_witness :
  is_Some (ReadHeader
             (headerContainer (WriteHeaderBatch toyHash stagedAB sparse))
             (toyHash hA) 2) /\
  is_Some (ReadHeaderNumber
             (headerContainer (WriteHeaderBatch toyHash stagedAB sparse))
             (toyHash hA)).
Proof.
  destruct (WriteHeaderBatch_keeps toyHash sparse stagedAB (toyHash hA) 2)
    as [Hh Hn].
  split; [apply Hh|apply Hn]; vm_compute; eauto.
Defined.

Lemma readAllHeaders_complete_witness :
  Forall is_Some (readAllHeaders stagedAB) /\
  length (readAllHeaders stagedAB) =
  size (headerTable (headerContainer stagedAB)).
Proof.
  apply (readAllHeaders_complete toyHash stagedAB).
  exists [hA; hB]. apply stagedAB_written.
Defined.

End ContainerEdges.

(** * Reading after writes *)

Section ReadsAfterWrites.

Import rawdb core.

Lemma filter_seqZ_head (P : Z -> Prop) `{!forall i, Decision (P i)}
  (k len : Z) :
  0 < len -> P k -> head (filter P (seqZ k len)) = Some k.
Proof.
  intros Hlen Hk. rewrite seqZ_cons by exact Hlen.
  rewrite filter_cons_True by exact Hk. reflexivity.
Qed.

Lemma filter_seqZ_last (P : Z -> Prop) `{!forall i, Decision (P i)}
  (k len : Z) :
  0 < len -> P (k + len - 1) ->
  last (filter P (seqZ k len)) = Some (k + len - 1).
Proof.
  intros Hlen Hk.
  replace len with (Z.of_nat (S (Z.to_nat (len - 1)))) at 1 by lia.
  rewrite seqZ_S, filter_app.
  replace (k + Z.of_nat (Z.to_nat (len - 1))) with (k + len - 1) by lia.
  rewrite (filter_cons_True P (k + len - 1) []) by exact Hk.
  rewrite filter_nil. apply last_snoc.
Qed.

(** The snapshot reads the header table and the number index only. *)
Lemma readAllHeaders_tables (c c' : PandoraPendingHeaderContainer) :
  headerTable (headerContainer c) = headerTable (headerContainer c') ->
  numberTable (headerContainer c) = numberTable (headerContainer c') ->
  readAllHeaders c = readAllHeaders c'.
Proof.
  intros Hh Hn. unfold readAllHeaders, NewIterator_h. rewrite Hh.
  generalize (merge_sort key_le (map_to_list (headerTable (headerContainer c'))).*1).
  intros it. generalize (@nil (option Header)).
  induction it as [|k it IH]; intros acc; [reflexivity|].
  cbn [readAllHeaders_loop]. unfold ReadHeaderNumber, ReadHeader.
  rewrite Hn, Hh.
  destruct (numberTable (headerContainer c') !! common.BytesToHash_key k);
    [apply IH|reflexivity].
Qed.

Section WithHash.

Variable Hash : Header -> Z.
Variable hs : list Header.
Variable c : PandoraPendingHeaderContainer.
Hypothesis Hinv : store_invariant Hash hs (headerContainer c).

Lemma written_number (h : Header) :
  h ∈ hs ->
  ReadHeaderNumber (headerContainer c) (Hash h) = Some (NumberU64 h).
Proof.
  intros Hin. apply (inv_number _ _ _ Hinv). exists h. tauto.
Qed.

Lemma written_header (h : Header) :
  h ∈ hs ->
  ReadHeader (headerContainer c) (Hash h) (NumberU64 h) = Some h.
Proof.
  intros Hin. apply (inv_header _ _ _ Hinv). tauto.
Qed.

Lemma written_head (hn : Header) :
  last hs = Some hn ->
  ReadHeadHeaderHash (headerContainer c) = Hash hn.
Proof.
  intros Hlast. unfold ReadHeadHeaderHash.
  rewrite (inv_head _ _ _ Hinv), fmap_last, Hlast. reflexivity.
Qed.

Lemma written_last_number (hn : Header) :
  last hs = Some hn ->
  ReadHeaderNumber (headerContainer c)
    (ReadHeadHeaderHash (headerContainer c)) = Some (NumberU64 hn).
Proof.
  intros Hlast. rewrite (written_head hn Hlast).
  apply written_number, last_Some_elem_of, Hlast.
Qed.

Lemma ReadHeaderSince_written (h hn : Header) (fuel : nat) :
  h ∈ hs -> last hs = Some hn ->
  ReadHeaderSince fuel c (Hash h) =
  ReadHeaderSince_loop fuel c (NumberU64 h) (NumberU64 hn) [].
Proof.
  intros Hin Hlast. apply ReadHeaderSince_resolved.
  - apply written_number, Hin.
  - apply written_last_number, Hlast.
Qed.

Lemma ReadHeaderSince_written_range (h hn : Header) (fuel : nat)
  (l : list (option Header)) :
  h ∈ hs -> last hs = Some hn ->
  ReadHeaderSince fuel c (Hash h) = Some l ->
  NumberU64 hn < uint64.max /\
  l = range_headers c (NumberU64 h) (NumberU64 hn).
Proof.
  intros Hin Hlast Hl.
  apply (ReadHeaderSince_cases Hash hs c Hinv) in Hl
    as [[Hnone _]|(k & n & Hk & Hn & Hlt & ->)].
  - rewrite (written_number h Hin) in Hnone. discriminate.
  - rewrite (written_number h Hin) in Hk.
    rewrite (written_last_number hn Hlast) in Hn.
    injection Hk as <-. injection Hn as <-. tauto.
Qed.

Lemma ReadHeaderSince_above_head_inv (h hn : Header) (fuel : nat) :
  h ∈ hs -> last hs = Some hn -> NumberU64 hn < NumberU64 h ->
  ReadHeaderSince (S fuel) c (Hash h) = Some [].
Proof.
  intros Hin Hlast Hlt. rewrite (ReadHeaderSince_written h hn _ Hin Hlast).
  cbn [ReadHeaderSince_loop].
  replace (NumberU64 h <=? NumberU64 hn) with false
    by (symmetry; apply Z.leb_gt, Hlt).
  reflexivity.
Qed.

Lemma ReadHeaderSince_range_ends_inv (h hn : Header) (fuel : nat)
  (l : list (option Header)) :
  h ∈ hs -> last hs = Some hn -> NumberU64 h <= NumberU64 hn ->
  ReadHeaderSince fuel c (Hash h) = Some l ->
  head (numbers l) = Some (NumberU64 h) /\
  last (numbers l) = Some (NumberU64 hn).
Proof.
  intros Hin Hlast Hle Hl.
  destruct (ReadHeaderSince_written_range h hn fuel l Hin Hlast Hl) as [_ ->].
  rewrite (numbers_range_headers Hash hs c Hinv). split.
  - apply filter_seqZ_head; [lia|]. apply list_elem_of_fmap_2, Hin.
  - rewrite filter_seqZ_last.
    + f_equal. lia.
    + lia.
    + replace (NumberU64 h + (NumberU64 hn - NumberU64 h + 1) - 1)
        with (NumberU64 hn) by lia.
      apply list_elem_of_fmap_2, last_Some_elem_of, Hlast.
Qed.

Lemma ReadHeaderSince_head_inv (hn : Header) (fuel : nat) :
  last hs = Some hn -> NumberU64 hn < uint64.max ->
  (forall h, h ∈ hs -> NumberU64 h = NumberU64 hn -> h = hn) ->
  ReadHeaderSince (S (S fuel)) c (Hash hn) = Some [Some hn].
Proof.
  intros Hlast Hlt Honly.
  pose proof (last_Some_elem_of _ _ Hlast) as Hin.
  rewrite (ReadHeaderSince_written hn hn _ Hin Hlast).
  rewrite ReadHeaderSince_loop_spec
    by (exact Hlt || apply NumberU64_range).
  case_decide; [|lia]. cbn [app].
  rewrite range_headers_step by lia.
  rewrite range_headers_empty by lia.
  destruct (proj2 (readHeader_is_Some Hash hs c Hinv (NumberU64 hn))
              (list_elem_of_fmap_2 _ _ _ Hin)) as [h Hh].
  rewrite Hh. apply (readHeader_Some Hash hs c Hinv) in Hh as [Hh Hnum].
  rewrite (Honly h Hh Hnum). reflexivity.
Qed.

Lemma ReadHeaderSince_in_snapshot_inv (from : Z) (fuel : nat)
  (l : list (option Header)) (o : option Header) :
  ReadHeaderSince fuel c from = Some l -> o ∈ l -> o ∈ readAllHeaders c.
Proof.
  intros Hl Ho.
  apply (ReadHeaderSince_cases Hash hs c Hinv) in Hl
    as [[_ ->]|(k & n & _ & _ & _ & ->)]; [exact Ho|].
  apply (range_headers_written Hash hs c Hinv) in Ho as (h & -> & Hin).
  rewrite (readAllHeaders_staged Hash hs c Hinv).
  apply list_elem_of_fmap_2, (staged_written Hash hs c Hinv), Hin.
Qed.

Lemma readAllHeaders_length_inv :
  length (readAllHeaders c) = length (remove_dups hs).
Proof.
  rewrite (readAllHeaders_staged Hash hs c Hinv), length_fmap.
  apply Permutation_length, NoDup_Permutation.
  - apply (NoDup_fmap_1 Some).
    rewrite <- (readAllHeaders_staged Hash hs c Hinv).
    apply (readAllHeaders_NoDup Hash hs c Hinv).
  - apply NoDup_remove_dups.
  - intros h. rewrite elem_of_remove_dups.
    apply (staged_written Hash hs c Hinv).
Qed.

Lemma WriteHeader_staged_again_inv (h : Header) :
  h ∈ hs ->
  headerTable (headerContainer (WriteHeader Hash c h)) =
    headerTable (headerContainer c) /\
  numberTable (headerContainer (WriteHeader Hash c h)) =
    numberTable (headerContainer c).
Proof.
  intros Hin. cbn. split; apply insert_id.
  - apply (written_header h Hin).
  - apply (written_number h Hin).
Qed.

End WithHash.

End ReadsAfterWrites.

(** * What a reader of the container can rely on *)

Section Reader.

Import rawdb core.

Lemma all_Some_fmap {A : Type} (l : list (option A)) :
  Forall is_Some l -> l = Some <$> omap id l.
Proof.
  induction 1 as [|o l [x ->] Hall IH]; [reflexivity|].
  cbn. rewrite <- IH. reflexivity.
Qed.

Lemma StronglySorted_fmap_lt {A : Type} (f : A -> Z) (l : list A) :
  StronglySorted Z.lt (f <$> l) ->
  StronglySorted (fun a b => f a < f b) l.
Proof.
  induction l as [|a l IH]; [constructor|].
  rewrite fmap_cons. intros Hs. apply StronglySorted_inv in Hs as [Hs Hall].
  constructor; [apply IH, Hs|]. rewrite Forall_fmap in Hall. exact Hall.
Qed.

Lemma ascending_inj (hs : list Header) (x y : Header) :
  StronglySorted Z.lt (NumberU64 <$> hs) ->
  x ∈ hs -> y ∈ hs -> NumberU64 x = NumberU64 y -> x = y.
Proof.
  intros Hs. apply StronglySorted_lt_NoDup in Hs.
  induction hs as [|a hs IH]; intros Hx Hy Heq.
  - apply elem_of_nil in Hx. destruct Hx.
  - rewrite fmap_cons in Hs. apply NoDup_cons in Hs as [Ha Hs].
    apply elem_of_cons in Hx as [->|Hx]; apply elem_of_cons in Hy as [->|Hy].
    + reflexivity.
    + destruct Ha. rewrite Heq. apply list_elem_of_fmap_2, Hy.
    + destruct Ha. rewrite <- Heq. apply list_elem_of_fmap_2, Hx.
    + apply IH; assumption.
Qed.

Lemma ascending_last (hs : list Header) (x hn : Header) :
  StronglySorted Z.lt (NumberU64 <$> hs) ->
  last hs = Some hn -> x ∈ hs -> NumberU64 x <= NumberU64 hn.
Proof.
  intros Hs Hlast Hx. apply last_Some in Hlast as [hs' ->].
  apply StronglySorted_fmap_lt in Hs.
  apply elem_of_app in Hx as [Hx|Hx].
  - pose proof (StronglySorted_app_1_elem_of _ hs' [hn] x hn Hs Hx) as Hlt.
    cbn in Hlt. apply Z.lt_le_incl, Hlt. apply list_elem_of_singleton.
    reflexivity.
  - apply list_elem_of_singleton in Hx. subst x. lia.
Qed.

Lemma stagedSparse_written : written toyHash sparse (headerContainer stagedSparse).
Proof. apply written_batch. reflexivity. Qed.

Lemma stagedDescending_written :
  written toyHash descending (headerContainer stagedDescending).
Proof. apply written_batch. reflexivity. Qed.

(** When the header asked for has a larger number than the header written
    last, the range is empty: [ReadHeaderSince] returns no header at all,
    not even the one whose hash it was given. *)
Theorem ReadHeaderSince_above_head (Hash : Header -> Z) (hs : list Header)
  (c : PandoraPendingHeaderContainer) (h hn : Header) (fuel : nat) :
  collision_free Hash hs ->
  written Hash hs (headerContainer c) ->
  h ∈ hs -> last hs = Some hn -> NumberU64 hn < NumberU64 h ->
  ReadHeaderSince (S fuel) c (Hash h) = Some [].
Proof.
  intros Hcf Hw. apply (ReadHeaderSince_above_head_inv Hash hs c).
  apply written_invariant; assumption.
Qed.

Lemma ReadHeaderSince_above_head_witness :
  ReadHeaderSince 1 stagedDescending (toyHash (hdr 5 0)) = Some [].
Proof.
  apply (ReadHeaderSince_above_head toyHash descending stagedDescending
           (hdr 5 0) (hdr 3 0) 0 (toyHash_collision_free _)
           stagedDescending_written).
  - apply elem_of_cons. left. reflexivity.
  - reflexivity.
  - vm_compute. reflexivity.
Defined.

(** When the header asked for has a number up to that of the header
    written last, whatever [ReadHeaderSince] returns starts with a header
    of the asked header's number and ends with one of the last written
    header's number. *)
Theorem ReadHeaderSince_range_ends (Hash : Header -> Z) (hs : list Header)
  (c : PandoraPendingHeaderContainer) (h hn : Header) (fuel : nat)
  (l : list (option Header)) :
  collision_free Hash hs ->
  written Hash hs (headerContainer c) ->
  h ∈ hs -> last hs = Some hn -> NumberU64 h <= NumberU64 hn ->
  ReadHeaderSince fuel c (Hash h) = Some l ->
  head (numbers l) = Some (NumberU64 h) /\
  last (numbers l) = Some (NumberU64 hn).
Proof.
  intros Hcf Hw. apply (ReadHeaderSince_range_ends_inv Hash hs c).
  apply written_invariant; assumption.
Qed.

Lemma ReadHeaderSince_range_ends_witness :
  head (numbers [Some (hdr 1 0); Some (hdr 3 0); Some (hdr 4 0)]) =
    Some (NumberU64 (hdr 1 0)) /\
  last (numbers [Some (hdr 1 0); Some (hdr 3 0); Some (hdr 4 0)]) =
    Some (NumberU64 (hdr 4 0)).
Proof.
  apply (ReadHeaderSince_range_ends toyHash sparse stagedSparse
           (hdr 1 0) (hdr 4 0) 5 _ (toyHash_collision_free _)
           stagedSparse_written).
  - apply elem_of_cons. left. reflexivity.
  - reflexivity.
  - vm_compute. discriminate.
  - vm_compute. reflexivity.
Defined.

(** Asked for the header written last, whose number is below the largest
    [uint64] and is shared by no other written header, [ReadHeaderSince]
    returns that header alone, given two units of fuel or more. *)
Theorem ReadHeaderSince_head (Hash : Header -> Z) (hs : list Header)
  (c : PandoraPendingHeaderContainer) (hn : Header) (fuel : nat) :
  collision_free Hash hs ->
  written Hash hs (headerContainer c) ->
  last hs = Some hn -> NumberU64 hn < uint64.max ->
  (forall h, h ∈ hs -> NumberU64 h = NumberU64 hn -> h = hn) ->
  ReadHeaderSince (S (S fuel)) c (Hash hn) = Some [Some hn].
Proof.
  intros Hcf Hw. apply (ReadHeaderSince_head_inv Hash hs c).
  apply written_invariant; assumption.
Qed.

Lemma ReadHeaderSince_head_witness :
  ReadHeaderSince 2 stagedSparse (toyHash (hdr 4 0)) = Some [Some (hdr 4 0)].
Proof.
  apply (ReadHeaderSince_head toyHash sparse stagedSparse (hdr 4 0) 0
           (toyHash_collision_free _) stagedSparse_written).
  - reflexivity.
  - vm_compute. reflexivity.
  - intros h Hin Hnum.
    repeat (apply elem_of_cons in Hin as [->|Hin];
            [first [reflexivity | vm_compute in Hnum; discriminate]|]).
    apply elem_of_nil in Hin. destruct Hin.
Defined.

(** Whatever [ReadHeaderSince] returns, on either branch, is part of the
    full snapshot of the same container. *)
Theorem ReadHeaderSince_in_snapshot (Hash : Header -> Z) (hs : list Header)
  (c : PandoraPendingHeaderContainer) (from : Z) (fuel : nat)
  (l : list (option Header)) (o : option Header) :
  collision_free Hash hs ->
  written Hash hs (headerContainer c) ->
  ReadHeaderSince fuel c from = Some l -> o ∈ l -> o ∈ readAllHeaders c.
Proof.
  intros Hcf Hw. apply (ReadHeaderSince_in_snapshot_inv Hash hs c).
  apply written_invariant; assumption.
Qed.

Lemma ReadHeaderSince_in_snapshot_witness :
  Some (hdr 3 0) ∈ readAllHeaders stagedSparse.
Proof.
  apply (ReadHeaderSince_in_snapshot toyHash sparse stagedSparse
           (toyHash (hdr 1 0)) 5
           [Some (hdr 1 0); Some (hdr 3 0); Some (hdr 4 0)] (Some (hdr 3 0))
           (toyHash_collision_free _) stagedSparse_written).
  - vm_compute. reflexivity.
  - apply elem_of_cons. right. apply elem_of_cons. left. reflexivity.
Defined.

(** The full snapshot has one entry for each distinct header written,
    however often each was written. *)
Theorem readAllHeaders_length (Hash : Header -> Z) (hs : list Header)
  (c : PandoraPendingHeaderContainer) :
  collision_free Hash hs ->
  written Hash hs (headerContainer c) ->
  length (readAllHeaders c) = length (remove_dups hs).
Proof.
  intros Hcf Hw. apply (readAllHeaders_length_inv Hash hs c).
  apply written_invariant; assumption.
Qed.

Lemma readAllHeaders_length_witness :
  length (readAllHeaders
            (WriteHeaderBatch toyHash NewPandoraPendingHeaderContainer
               [hA; hB; hA])) =
  length (remove_dups [hA; hB; hA]).
Proof.
  apply (readAllHeaders_length toyHash [hA; hB; hA] _
           (toyHash_collision_free _)).
  apply written_batch. reflexivity.
Defined.

(** Writing again a header that is already staged changes neither the
    header table nor the number index, so the full snapshot is the same;
    it only makes that header the head. *)
Theorem WriteHeader_staged_again (Hash : Header -> Z) (hs : list Header)
  (c : PandoraPendingHeaderContainer) (h : Header) :
  collision_free Hash hs ->
  written Hash hs (headerContainer c) ->
  h ∈ hs ->
  let c' := WriteHeader Hash c h in
  headerTable (headerContainer c') = headerTable (headerContainer c) /\
  numberTable (headerContainer c') = numberTable (headerContainer c) /\
  readAllHeaders c' = readAllHeaders c /\
  ReadHeadHeaderHash (headerContainer c') = Hash h.
Proof.
  intros Hcf Hw Hin c'.
  destruct (WriteHeader_staged_again_inv Hash hs c
              (written_invariant Hash hs _ Hw Hcf) h Hin) as [Hh Hn].
  split; [exact Hh|]. split; [exact Hn|].
  split; [apply readAllHeaders_tables; assumption|reflexivity].
Qed.

Lemma WriteHeader_staged_again_witness :
  let c' := WriteHeader toyHash stagedSparse (hdr 1 0) in
  headerTable (headerContainer c') = headerTable (headerContainer stagedSparse) /\
  numberTable (headerContainer c') = numberTable (headerContainer stagedSparse) /\
  readAllHeaders c' = readAllHeaders stagedSparse /\
  ReadHeadHeaderHash (headerContainer c') = toyHash (hdr 1 0).
Proof.
  apply (WriteHeader_staged_again toyHash sparse stagedSparse (hdr 1 0)
           (toyHash_collision_free _) stagedSparse_written).
  apply elem_of_cons. left. reflexivity.
Defined.

(** The full snapshot does not depend on the order of the writes: two
    containers that were given the same headers in different orders return
    the same snapshot. *)
Theorem readAllHeaders_order_independent (Hash : Header -> Z)
  (hs hs' : list Header) (c c' : PandoraPendingHeaderContainer) :
  collision_free Hash hs ->
  hs ≡ₚ hs' ->
  written Hash hs (headerContainer c) ->
  written Hash hs' (headerContainer c') ->
  readAllHeaders c = readAllHeaders c'.
Proof.
  intros Hcf Hperm Hw Hw'.
  assert (Hcf' : collision_free Hash hs').
  { intros h1 h2 H1 H2. apply Hcf; rewrite Hperm; assumption. }
  pose proof (written_invariant Hash hs _ Hw Hcf) as Hinv.
  pose proof (written_invariant Hash hs' _ Hw' Hcf') as Hinv'.
  apply readAllHeaders_tables.
  - apply map_eq. intros [n hash]. apply option_eq. intros h.
    rewrite (inv_header _ _ _ Hinv), (inv_header _ _ _ Hinv'), Hperm.
    reflexivity.
  - apply map_eq. intros hash. apply option_eq. intros n.
    rewrite (inv_number _ _ _ Hinv), (inv_number _ _ _ Hinv').
    split; intros (h & Hin & Hrest); exists h; split; try exact Hrest.
    + rewrite <- Hperm. exact Hin.
    + rewrite Hperm. exact Hin.
Qed.

Lemma readAllHeaders_order_independent_witness :
  readAllHeaders stagedAB =
  readAllHeaders
    (WriteHeaderBatch toyHash NewPandoraPendingHeaderContainer [hB; hA]).
Proof.
  apply (readAllHeaders_order_independent toyHash [hA; hB] [hB; hA]
           stagedAB _ (toyHash_collision_free _)).
  - apply Permutation_swap.
  - apply stagedAB_written.
  - apply written_batch. reflexivity.
Defined.

End Reader.

(** * Headers written in ascending order *)

Section Ascending.

Import rawdb core.

(** The intended use: the headers were written with strictly ascending
    numbers.  Whatever [ReadHeaderSince] returns for the hash of one of
    them is that header and all the headers written after it, in the order
    they were written; and it does return when the last number is below
    the largest [uint64]. *)
Theorem ReadHeaderSince_ascending (Hash : Header -> Z) (hs : list Header)
  (c : PandoraPendingHeaderContainer) (h : Header) :
  collision_free Hash hs ->
  written Hash hs (headerContainer c) ->
  StronglySorted Z.lt (NumberU64 <$> hs) ->
  h ∈ hs ->
  (forall fuel l,
     ReadHeaderSince fuel c (Hash h) = Some l ->
     l = Some <$> filter (fun h' => NumberU64 h <= NumberU64 h') hs) /\
  (forall hn,
     last hs = Some hn -> NumberU64 hn < uint64.max ->
     exists fuel,
       ReadHeaderSince fuel c (Hash h) =
       Some (Some <$> filter (fun h' => NumberU64 h <= NumberU64 h') hs)).
Proof.
  intros Hcf Hw Hasc Hin.
  pose proof (written_invariant Hash hs _ Hw Hcf) as Hinv.
  assert (Hret : forall fuel l,
            ReadHeaderSince fuel c (Hash h) = Some l ->
            l = Some <$> filter (fun h' => NumberU64 h <= NumberU64 h') hs).
  { intros fuel l Hl.
    destruct (last hs) as [hn|] eqn:Hlast;
      [|apply last_None in Hlast; rewrite Hlast in Hin;
        apply elem_of_nil in Hin; destruct Hin].
    destruct (ReadHeaderSince_written_range Hash hs c Hinv h hn fuel l
                Hin Hlast Hl) as [_ ->].
    set (k := NumberU64 h). set (n := NumberU64 hn).
    assert (Hall : Forall is_Some (range_headers c k n)).
    { apply Forall_forall. intros o Ho.
      apply (range_headers_written Hash hs c Hinv) in Ho as (x & -> & _).
      eauto. }
    rewrite (all_Some_fmap _ Hall) at 1. f_equal.
    assert (Hmem : forall x, Some x ∈ range_headers c k n <->
                             x ∈ hs /\ k <= NumberU64 x).
    { intros x. unfold range_headers.
      rewrite list_elem_of_filter, list_elem_of_fmap. split.
      - intros (_ & i & Hi & Hseq). symmetry in Hi.
        apply (readHeader_Some Hash hs c Hinv) in Hi as [Hx Hnum].
        apply elem_of_seqZ in Hseq. split; [exact Hx|lia].
      - intros [Hx Hle]. split; [eauto|]. exists (NumberU64 x).
        split; [|apply elem_of_seqZ;
                 pose proof (ascending_last hs x hn Hasc Hlast Hx);
                 unfold n; lia].
        destruct (proj2 (readHeader_is_Some Hash hs c Hinv (NumberU64 x))
                    (list_elem_of_fmap_2 _ _ _ Hx)) as [x' Hx'].
        rewrite Hx'. f_equal.
        apply (readHeader_Some Hash hs c Hinv) in Hx' as [Hin' Hnum].
        symmetry. apply (ascending_inj hs x' x Hasc Hin' Hx Hnum). }
    apply (StronglySorted_unique_strong
             (fun a b : Header => NumberU64 a < NumberU64 b)).
    - intros x1 x2 _ _ H1 H2. lia.
    - apply StronglySorted_fmap_lt.
      apply (range_headers_increasing Hash hs c Hinv k n).
    - apply StronglySorted_filter, StronglySorted_fmap_lt, Hasc.
    - apply NoDup_Permutation.
      + apply (NoDup_fmap_1 NumberU64), StronglySorted_lt_NoDup.
        apply (range_headers_increasing Hash hs c Hinv k n).
      + apply NoDup_filter, (NoDup_fmap_1 NumberU64).
        apply StronglySorted_lt_NoDup, Hasc.
      + intros x. rewrite list_elem_of_omap, list_elem_of_filter. split.
        * intros (o & Ho & Hid). cbn in Hid. subst o.
          apply Hmem in Ho. tauto.
        * intros [Hle Hx]. exists (Some x). split; [|reflexivity].
          apply Hmem. tauto. }
  split; [exact Hret|].
  intros hn Hlast Hlt.
  destruct (ReadHeaderSince_total Hash hs c Hinv (Hash h)) as (fuel & l & Hl).
  { right. rewrite (written_last_number Hash hs c Hinv hn Hlast).
    intros [= Heq]. lia. }
  exists fuel. rewrite Hl. f_equal. apply (Hret fuel l Hl).
Qed.

Lemma ReadHeaderSince_ascending_witness :
  (forall fuel l,
     ReadHeaderSince fuel stagedSparse (toyHash (hdr 3 0)) = Some l ->
     l = Some <$> filter (fun h' => NumberU64 (hdr 3 0) <= NumberU64 h') sparse) /\
  (forall hn,
     last sparse = Some hn -> NumberU64 hn < uint64.max ->
     exists fuel,
       ReadHeaderSince fuel stagedSparse (toyHash (hdr 3 0)) =
       Some (Some <$> filter (fun h' => NumberU64 (hdr 3 0) <= NumberU64 h')
                        sparse)).
Proof.
  apply (ReadHeaderSince_ascending toyHash sparse stagedSparse (hdr 3 0)
           (toyHash_collision_free _) stagedSparse_written).
  - vm_compute. repeat constructor.
  - apply elem_of_cons. right. apply elem_of_cons. left. reflexivity.
Defined.

End Ascending.

(** * Batches on the confirmation exchange *)

Section ExchangeBatches.

Import pandora_orcclient.

(** The service answers item by item: the answer to two non-empty requests
    sent as one is the answer to the first followed by the answer to the
    second. *)
Theorem ConfirmPanBlockHashes_app (request1 request2 : list BlockHash) :
  request1 <> [] -> request2 <> [] ->
  exists response1 response2,
    ConfirmPanBlockHashes request1 = Ok response1 /\
    ConfirmPanBlockHashes request2 = Ok response2 /\
    ConfirmPanBlockHashes (request1 ++ request2) = Ok (response1 ++ response2).
Proof.
  intros H1 H2.
  rewrite !ConfirmPanBlockHashes_map;
    [|destruct request1; [congruence|discriminate]|exact H2|exact H1].
  do 2 eexists. split; [reflexivity|]. split; [reflexivity|].
  rewrite map_app. reflexivity.
Qed.

Lemma ConfirmPanBlockHashes_app_witness :
  exists response1 response2,
    ConfirmPanBlockHashes testRequest = Ok response1 /\
    ConfirmPanBlockHashes [mkBlockHash 3 5] = Ok response2 /\
    ConfirmPanBlockHashes (testRequest ++ [mkBlockHash 3 5]) =
    Ok (response1 ++ response2).
Proof.
  apply (ConfirmPanBlockHashes_app testRequest [mkBlockHash 3 5]);
    discriminate.
Defined.

(** The service fails exactly on the empty request, and then with no
    status at all. *)
Theorem ConfirmPanBlockHashes_fails_iff_empty (request : list BlockHash) :
  (exists err, ConfirmPanBlockHashes request = Err err) <-> request = [].
Proof.
  split.
  - intros [err Herr]. destruct request as [|item request]; [reflexivity|].
    rewrite ConfirmPanBlockHashes_map in Herr by discriminate. discriminate.
  - intros ->. eexists. reflexivity.
Qed.

End ExchangeBatches.

(** * The genesis of the miner stress test *)

Section StressGenesis.

Import stress.

Context {PrivateKey PublicKey ConfigRest GenesisRest : Type}.
Variable PubkeyToAddress : PrivateKey -> Z.

Abbreviation Info := (MinimalEpochConsensusInfo PublicKey).
Abbreviation Genesis := (stress.Genesis ConfigRest GenesisRest).

(** One round leaves one new cell behind, already holding the epoch's
    final start time, and its pointer in the array. *)
Lemma makeGenesis_round_cell (sealers : list PublicKey) (start : Z)
  (heap : list Info) (consensusInfos : list (option nat)) (index : Z) :
  0 <= index < uint64.modulus ->
  makeGenesis_round PublicKey sealers start (heap, consensusInfos) index =
  (heap ++ [{| Epoch := index;
               ValidatorsList := sealers;
               EpochTimeStart :=
                 if index <? 1 then start
                 else (start + (index * 6) mod uint64.modulus)
                      mod uint64.modulus;
               SlotTimeDuration := 6 |}],
   <[Z.to_nat index := Some (length heap)]> consensusInfos).
Proof.
  intros Hi. unfold makeGenesis_round, new, set_EpochTimeStart.
  rewrite (Z.mod_small index) by exact Hi.
  destruct (index <? 1); [reflexivity|].
  f_equal. rewrite <- (Nat.add_0_r (length heap)) at 1.
  exact (alter_app_r _ heap [_] 0).
Qed.

Lemma faucets_alloc (faucets : list PrivateKey) (alloc : gmap Z Z) (a : Z) :
  fold_left (fun alloc faucet => <[PubkeyToAddress faucet := 2 ^ 128]> alloc)
    faucets alloc !! a =
  if decide (a ∈ PubkeyToAddress <$> faucets) then Some (2 ^ 128)
  else alloc !! a.
Proof.
  revert alloc. induction faucets as [|faucet faucets IH]; intros alloc.
  - cbn. case_decide as Hin; [apply elem_of_nil in Hin; destruct Hin|].
    reflexivity.
  - cbn [fold_left]. rewrite IH, fmap_cons.
    destruct (decide (a ∈ PubkeyToAddress <$> faucets)) as [Hin|Hnin];
      destruct (decide (a ∈ PubkeyToAddress faucet :: (PubkeyToAddress <$> faucets)))
        as [Hin'|Hnin'].
    + reflexivity.
    + destruct Hnin'. apply elem_of_cons. right. exact Hin.
    + apply elem_of_cons in Hin' as [->|Hin']; [|destruct (Hnin Hin')].
      apply lookup_insert_eq.
    + apply lookup_insert_ne. intros <-. apply Hnin', elem_of_cons.
      left. reflexivity.
Qed.

Lemma makeGenesis_round_scheduled (sealers : list PublicKey) (timeNow : Z)
  (heap : list Info) (consensusInfos : list (option nat)) (index : Z) :
  0 <= index < 4 ->
  makeGenesis_round PublicKey sealers (timeNow mod uint64.modulus)
    (heap, consensusInfos) index =
  (heap ++ [scheduled PublicKey sealers timeNow index],
   <[Z.to_nat index := Some (length heap)]> consensusInfos).
Proof.
  intros Hi. rewrite makeGenesis_round_cell by (rewrite modulus_eq; lia).
  unfold scheduled. do 3 f_equal.
  destruct (Z.ltb_spec index 1) as [Hlt|Hge].
  - replace index with 0 by lia. rewrite Z.add_0_r. reflexivity.
  - rewrite (Z.mod_small (index * 6)) by (rewrite modulus_eq; lia).
    rewrite Z.add_mod_idemp_l by (rewrite modulus_eq; lia).
    replace (index * 6) with (6 * index) by lia. reflexivity.
Qed.

(** The four rounds leave four cells, one behind the other, and the array
    of their pointers. *)
Lemma makeGenesis_rounds (sealers : list PublicKey) (timeNow : Z)
  (heap : list Info) :
  fold_left (makeGenesis_round PublicKey sealers (timeNow mod uint64.modulus))
    [0; 1; 2; 3] (heap, [None; None; None; None]) =
  (heap ++ [scheduled PublicKey sealers timeNow 0;
            scheduled PublicKey sealers timeNow 1;
            scheduled PublicKey sealers timeNow 2;
            scheduled PublicKey sealers timeNow 3],
   [Some (length heap + 0)%nat; Some (length heap + 1)%nat;
    Some (length heap + 2)%nat; Some (length heap + 3)%nat]).
Proof.
  cbn [fold_left]. rewrite !makeGenesis_round_scheduled by lia. f_equal.
  - rewrite <- !app_assoc. reflexivity.
  - change (Z.to_nat 0) with 0%nat. change (Z.to_nat 1) with 1%nat.
    change (Z.to_nat 2) with 2%nat. change (Z.to_nat 3) with 3%nat.
    cbn [insert list_insert]. rewrite !length_app. cbn [length].
    rewrite Nat.add_0_r, <- !Nat.add_assoc. reflexivity.
Qed.

(** The epochs [makeGenesis] schedules: whatever the time and the heap, the
    genesis has the four epochs 0, 1, 2 and 3, each with all the sealers as
    validators and slots of 6 seconds, and epoch [i] starts [6 * i]
    seconds after the genesis time (modulo [2^64]): one slot after the
    epoch before it. *)
Theorem makeGenesis_schedule (ropsten : Genesis) (MinimumDifficulty : Z)
  (timeNow : Z) (heap : list Info) (faucets : list PrivateKey)
  (sealers : list PublicKey) (i : Z) :
  0 <= i < 4 ->
  ConsensusInfo_at PublicKey ConfigRest GenesisRest
    (makeGenesis PrivateKey PublicKey PubkeyToAddress ConfigRest GenesisRest
       ropsten MinimumDifficulty timeNow heap faucets sealers) (Z.to_nat i) =
  Some (scheduled PublicKey sealers timeNow i).
Proof.
  intros Hi. unfold makeGenesis. rewrite makeGenesis_rounds.
  unfold ConsensusInfo_at. cbn [fst snd Config PandoraConfig].
  assert (Hcases : i = 0 \/ i = 1 \/ i = 2 \/ i = 3) by lia.
  destruct Hcases as [-> | [-> | [-> | ->]]];
    [change (Z.to_nat 0) with 0%nat | change (Z.to_nat 1) with 1%nat
    |change (Z.to_nat 2) with 2%nat | change (Z.to_nat 3) with 3%nat];
    cbn [lookup list_lookup mbind option_bind];
    (etrans; [apply lookup_app_r; lia|]);
    match goal with
    | |- _ !! (_ + ?j - _)%nat = _ =>
        replace (length heap + j - length heap)%nat with j by lia
    end; reflexivity.
Qed.

(** The accounts [makeGenesis] funds: whatever the Ropsten genesis
    allocated is dropped; an address has a balance exactly when it is the
    address of a faucet, and the balance is [2^128]. *)
Theorem makeGenesis_alloc (ropsten : Genesis) (MinimumDifficulty : Z)
  (timeNow : Z) (heap : list Info) (faucets : list PrivateKey)
  (sealers : list PublicKey) (a : Z) :
  Alloc ConfigRest GenesisRest
    (makeGenesis PrivateKey PublicKey PubkeyToAddress ConfigRest GenesisRest
       ropsten MinimumDifficulty timeNow heap faucets sealers).2 !! a =
  if decide (a ∈ PubkeyToAddress <$> faucets) then Some (2 ^ 128) else None.
Proof.
  unfold makeGenesis.
  destruct (fold_left _ [0; 1; 2; 3] _) as [heap' consensusInfos].
  cbn [snd Alloc]. rewrite faucets_alloc, lookup_empty. reflexivity.
Qed.

End StressGenesis.

Lemma makeGenesis_schedule_witness :
  stress.ConsensusInfo_at Z unit unit
    (stress.makeGenesis Z Z (fun key => key) unit unit
       (stress.mkGenesis unit unit
          (stress.mkChainConfig unit 3 0 None None tt) 1 1 ∅ tt)
       131072 1620000000 [] [10; 11] [7; 8; 9]) (Z.to_nat 2) =
  Some (stress.scheduled Z [7; 8; 9] 1620000000 2).
Proof.
  apply (makeGenesis_schedule (fun key : Z => key)). lia.
Defined.
